(** * Concurrent traffic simulation: the admission queue, the intersection
      gate and the traffic light of [Intersection.cpp] and [TrafficLight.cpp].

    The C++ objects are embedded as records, the member functions as
    functions passing the state they touch.  Blocking calls return [None]
    when the caller cannot proceed in the given state; undefined behaviour
    and thrown exceptions are results of type [result]. *)

From Stdlib Require Import ZArith Lia.
From stdpp Require Import base numbers option list.

Open Scope Z_scope.

(** ** Outcomes of a call *)

(** [std::future_errc] values a [std::promise] can throw on [set_value]. *)
Inductive future_errc := promise_already_satisfied | no_state.

(** What can go wrong in the modelled member functions: dereferencing
    [begin()] of an empty vector (undefined behaviour), and
    [std::future_error] out of [set_value]. *)
Inductive failure :=
  | EmptyFront
  | FutureError (e : future_errc).

Inductive result (A : Type) :=
  | Ok (a : A)
  | Fail (f : failure).
Arguments Ok {A} a.
Arguments Fail {A} f.

#[global] Instance result_ret : MRet result := fun A a => Ok a.
#[global] Instance result_bind : MBind result := fun A B k m =>
  match m with
  | Ok a => k a
  | Fail f => Fail f
  end.

(** ** Machine integers *)

(** Conversion of a mathematical integer to a 32-bit [int]
    (two's complement wrap-around), as in [int getSize()] returning a
    [size_t]. *)
Definition to_int (z : Z) : Z := (z + 2 ^ 31) mod 2 ^ 32 - 2 ^ 31.

(** ** Traffic objects behind [std::shared_ptr] *)

(** A [std::shared_ptr<Street>]: the address of the pointee and the id the
    pointee answers to [getID()]. *)
Record Street := mkStreet { street_addr : nat; street_getID : nat }.

(** A [std::shared_ptr<Vehicle>]. *)
Record Vehicle := mkVehicle { vehicle_addr : nat; vehicle_getID : nat }.

#[global] Instance Street_eq_dec : EqDecision Street.
Proof. solve_decision. Defined.
#[global] Instance Vehicle_eq_dec : EqDecision Vehicle.
Proof. solve_decision. Defined.

(** ** Promises and their shared states *)

(** The shared states of all [std::promise<void>]/[std::future<void>] pairs
    created so far; entry [p] is [true] once the state is ready.  A promise
    is the index of its shared state. *)
Abbreviation Promise := nat (only parsing).
Abbreviation shared_states := (list bool) (only parsing).

(** [std::promise<void> prms;]: a fresh shared state, not ready. *)
Definition promise_new (σ : shared_states) : Promise * shared_states :=
  (length σ, σ ++ [false]).

(** [prms.set_value()]. *)
Definition set_value (p : Promise) (σ : shared_states) : result shared_states :=
  match σ !! p with
  | None => Fail (FutureError no_state)
  | Some true => Fail (FutureError promise_already_satisfied)
  | Some false => Ok (<[p:=true]> σ)
  end.

(** [ftr.wait()] returns only when the shared state is ready. *)
Definition future_ready (p : Promise) (σ : shared_states) : bool :=
  match σ !! p with
  | Some true => true
  | _ => false
  end.

(** ** WaitingVehicles *)

Record WaitingVehicles := mkWaitingVehicles {
  _vehicles : list Vehicle;
  _promises : list Promise
}.

Definition WaitingVehicles_empty : WaitingVehicles :=
  {| _vehicles := []; _promises := [] |}.

(** [int WaitingVehicles::getSize()] *)
Definition getSize (q : WaitingVehicles) : Z :=
  to_int (Z.of_nat (length (_vehicles q))).

(** [void WaitingVehicles::pushBack(vehicle, promise)] *)
Definition pushBack (vehicle : Vehicle) (promise : Promise)
    (q : WaitingVehicles) : WaitingVehicles :=
  {| _vehicles := _vehicles q ++ [vehicle];
     _promises := _promises q ++ [promise] |}.

(** [void WaitingVehicles::permitEntryToFirstInQueue()]: [firstPromise] and
    [firstVehicle] are [begin()] of the two vectors; [set_value] goes
    through [firstPromise], then both fronts are erased. *)
Definition permitEntryToFirstInQueue (q : WaitingVehicles) (σ : shared_states)
    : result (WaitingVehicles * shared_states) :=
  match _promises q with
  | [] => Fail EmptyFront
  | firstPromise :: promises' =>
      σ' ← set_value firstPromise σ;
      match _vehicles q with
      | [] => Fail EmptyFront
      | firstVehicle :: vehicles' =>
          Ok ({| _vehicles := vehicles'; _promises := promises' |}, σ')
      end
  end.

(** The request at the front of the queue: what [firstVehicle] and
    [firstPromise] point to, when both exist. *)
Definition front (q : WaitingVehicles) : option (Vehicle * Promise) :=
  match _vehicles q, _promises q with
  | v :: _, p :: _ => Some (v, p)
  | _, _ => None
  end.

(** Operations a client of the queue performs, and their sequential runs. *)
Inductive queue_op :=
  | OpPushBack (vehicle : Vehicle) (promise : Promise)
  | OpPermitEntry.

(** The requests pushed by a run, in order. *)
Fixpoint pushed (ops : list queue_op) : list (Vehicle * Promise) :=
  match ops with
  | [] => []
  | OpPushBack v p :: ops' => (v, p) :: pushed ops'
  | OpPermitEntry :: ops' => pushed ops'
  end.

(** The number of [permitEntryToFirstInQueue] calls of a run. *)
Fixpoint permits (ops : list queue_op) : nat :=
  match ops with
  | [] => O
  | OpPushBack _ _ :: ops' => permits ops'
  | OpPermitEntry :: ops' => S (permits ops')
  end.

(** Runs the operations in order; next to the final state it returns the
    grants of the run: for each [permitEntryToFirstInQueue] the vehicle
    erased and the promise fulfilled, oldest first. *)
Fixpoint run_ops (ops : list queue_op) (q : WaitingVehicles) (σ : shared_states)
    : result (WaitingVehicles * shared_states * list (Vehicle * Promise)) :=
  match ops with
  | [] => Ok (q, σ, [])
  | OpPushBack v p :: ops' => run_ops ops' (pushBack v p q) σ
  | OpPermitEntry :: ops' =>
      '(q', σ') ← permitEntryToFirstInQueue q σ;
      '(q'', σ'', grants) ← run_ops ops' q' σ';
      Ok (q'', σ'', option_list (front q) ++ grants)
  end.

(** ** MessageQueue<T> *)

Record MessageQueue (T : Type) := mkMessageQueue { _messages : list T }.
Arguments mkMessageQueue {T} _messages.
Arguments _messages {T} m.

(** [std::vector::back()]; [None] on an empty vector. *)
Fixpoint back {T} (l : list T) : option T :=
  match l with
  | [] => None
  | [x] => Some x
  | _ :: l' => back l'
  end.

(** [std::vector::pop_back()]. *)
Fixpoint pop_back {T} (l : list T) : list T :=
  match l with
  | [] => []
  | [x] => []
  | x :: l' => x :: pop_back l'
  end.

(** [T MessageQueue<T>::receive()]: [_cond.wait] lets the caller through
    only when [_messages] is not empty ([None]: the caller stays blocked);
    then the back element is moved out and popped. *)
Definition receive {T} (q : MessageQueue T) : option (T * MessageQueue T) :=
  match back (_messages q) with
  | None => None
  | Some msg => Some (msg, {| _messages := pop_back (_messages q) |})
  end.

(** [void MessageQueue<T>::send(T &&msg)]: [push_back] under the lock.  The
    100 ms sleep has no effect on the state; the console line is written by
    the caller's model ([cycleThroughPhases_iter]). *)
Definition send {T} (msg : T) (q : MessageQueue T) : MessageQueue T :=
  {| _messages := _messages q ++ [msg] |}.

(** [sends l q] sends the messages of [l] in order, first to last. *)
Definition sends {T} (l : list T) (q : MessageQueue T) : MessageQueue T :=
  foldl (fun q msg => send msg q) q l.

(** [n] calls of [receive] in a row; the values are listed in the order the
    calls returned them.  [None] when one of the calls blocks. *)
Fixpoint receive_n {T} (n : nat) (q : MessageQueue T)
    : option (list T * MessageQueue T) :=
  match n with
  | O => Some ([], q)
  | S n' =>
      match receive q with
      | None => None
      | Some (msg, q') =>
          match receive_n n' q' with
          | None => None
          | Some (msgs, q'') => Some (msg :: msgs, q'')
          end
      end
  end.

(** ** TrafficLight *)

Inductive TrafficLightPhase := red | green.

#[global] Instance TrafficLightPhase_eq_dec : EqDecision TrafficLightPhase.
Proof. solve_decision. Defined.

Record TrafficLight := mkTrafficLight {
  _currentPhase : TrafficLightPhase;
  _queue : MessageQueue TrafficLightPhase
}.

(** [TrafficLight::TrafficLight()] *)
Definition TrafficLight_new : TrafficLight :=
  {| _currentPhase := red; _queue := {| _messages := [] |} |}.

(** [TrafficLightPhase TrafficLight::getCurrentPhase()] *)
Definition getCurrentPhase (tl : TrafficLight) : TrafficLightPhase :=
  _currentPhase tl.

(** One turn of the loop of [TrafficLight::waitForGreen()]: [None] while
    [receive] blocks, else the received phase, whether the function returns
    ([true]) or loops ([false]), and the light after the receive. *)
Definition waitForGreen_turn (tl : TrafficLight)
    : option (TrafficLightPhase * bool * TrafficLight) :=
  match receive (_queue tl) with
  | None => None
  | Some (phase, q') =>
      Some (phase,
            match phase with green => true | red => false end,
            {| _currentPhase := _currentPhase tl; _queue := q' |})
  end.

(** Lines written to [std::cout]. *)
Inductive cout_line :=
  | line_addVehicleToQueue (id : nat) (thread_id : nat)
  | line_granted (id : nat) (vehicle_id : nat)
  | line_isBlocked (id : nat) (isBlocked : bool)
  | line_message_sent (msg : TrafficLightPhase).

(** *** cycleThroughPhases *)

Definition min : Z := 4000.
Definition max : Z := 6000.

(** The contract of [std::uniform_int_distribution<int> uni(min, max)]:
    every value of [uni(rng)] lies in the closed range. *)
Definition uni (d : Z) : Prop := min ≤ d ≤ max.

(** Ticks of [std::chrono::high_resolution_clock] per millisecond
    (a nanosecond clock). *)
Definition ticks_per_ms : Z := 1000000.

(** [duration_cast<milliseconds>(phase_end - phase_start).count()] *)
Definition time_elapsed (phase_start phase_end : Z) : Z :=
  (phase_end - phase_start) `quot` ticks_per_ms.

(** The locals of [cycleThroughPhases] that live across loop turns. *)
Record cycle_locals := mkCycleLocals {
  phase_duration : Z;
  phase_start : Z
}.


(** What one loop turn reads from outside: the clock at line 109, and, when
    the phase is toggled, the clock at line 123 and [uni(rng)] at line 124. *)
Record cycle_input := mkCycleInput {
  now_phase_end : Z;
  now_restart : Z;
  uni_rng : Z
}.

(** One turn of the [while (true)] loop of
    [TrafficLight::cycleThroughPhases()]. *)
Definition cycleThroughPhases_iter (i : cycle_input)
    (s : cycle_locals * TrafficLight * list cout_line)
    : cycle_locals * TrafficLight * list cout_line :=
  let '(l, tl, out) := s in
  if phase_duration l <=? time_elapsed (phase_start l) (now_phase_end i) then
    let phase :=
      match _currentPhase tl with
      | red => green
      | _ => red
      end in
    ({| phase_duration := uni_rng i; phase_start := now_restart i |},
     {| _currentPhase := phase; _queue := send phase (_queue tl) |},
     out ++ [line_message_sent phase])
  else s.

(** The loop run over the inputs of successive turns. *)
Definition cycleThroughPhases_run (inputs : list cycle_input)
    (s : cycle_locals * TrafficLight * list cout_line)
    : cycle_locals * TrafficLight * list cout_line :=
  foldl (fun s i => cycleThroughPhases_iter i s) s inputs.

(** The number of turns of a run that toggle the phase. *)
Fixpoint toggles (inputs : list cycle_input) (l : cycle_locals) : nat :=
  match inputs with
  | [] => O
  | i :: inputs' =>
      if phase_duration l <=? time_elapsed (phase_start l) (now_phase_end i)
      then S (toggles inputs'
                {| phase_duration := uni_rng i; phase_start := now_restart i |})
      else toggles inputs' l
  end.


(** The [n] phases that follow [from] when every toggle flips the phase. *)
Fixpoint alternation (from : TrafficLightPhase) (n : nat)
    : list TrafficLightPhase :=
  match n with
  | O => []
  | S n' =>
      let next := match from with red => green | green => red end in
      next :: alternation next n'
  end.

(** ** Intersection *)

Record Intersection := mkIntersection {
  _id : nat;
  _streets : list Street;
  _waitingVehicles : WaitingVehicles;
  _isBlocked : bool;
  _trafficLight : TrafficLight
}.

(** [Intersection::Intersection()]; the id is handed out by the base class. *)
Definition Intersection_new (id : nat) : Intersection :=
  {| _id := id;
     _streets := [];
     _waitingVehicles := WaitingVehicles_empty;
     _isBlocked := false;
     _trafficLight := TrafficLight_new |}.

(** [void Intersection::addStreet(street)] *)
Definition addStreet (street : Street) (x : Intersection) : Intersection :=
  {| _id := _id x;
     _streets := _streets x ++ [street];
     _waitingVehicles := _waitingVehicles x;
     _isBlocked := _isBlocked x;
     _trafficLight := _trafficLight x |}.

(** [Intersection::queryStreets(incoming)]: the loop over [_streets] pushes
    to [outgoings]; the intersection is handed back as the call leaves it. *)
Definition queryStreets (incoming : Street) (x : Intersection)
    : list Street * Intersection :=
  let outgoings :=
    foldl (fun outgoings it =>
             if negb (street_getID incoming =? street_getID it)%nat
             then outgoings ++ [it]
             else outgoings)
          [] (_streets x) in
  (outgoings, x).

(** The state the threads of one intersection share: the intersection, the
    shared states of the promises, the console, and the mutex [_mtx]
    ([true]: locked). *)
Record World := mkWorld {
  intersection : Intersection;
  promises : shared_states;
  cout : list cout_line;
  _mtx : bool
}.

Definition World_new (id : nat) : World :=
  {| intersection := Intersection_new id;
     promises := [];
     cout := [];
     _mtx := false |}.

Definition waiting (w : World) : WaitingVehicles :=
  _waitingVehicles (intersection w).
Definition light (w : World) : TrafficLight :=
  _trafficLight (intersection w).
Definition blocked (w : World) : bool :=
  _isBlocked (intersection w).

(** [void Intersection::setIsBlocked(bool isBlocked)] *)
Definition setIsBlocked (isBlocked : bool) (w : World) : World :=
  let x := intersection w in
  {| intersection :=
       {| _id := _id x;
          _streets := _streets x;
          _waitingVehicles := _waitingVehicles x;
          _isBlocked := isBlocked;
          _trafficLight := _trafficLight x |};
     promises := promises w;
     cout := cout w ++ [line_isBlocked (_id x) isBlocked];
     _mtx := _mtx w |}.

(** [void Intersection::vehicleHasLeft(vehicle)] *)
Definition vehicleHasLeft (vehicle : Vehicle) (w : World) : World :=
  setIsBlocked false w.

(** The world with the queue and the shared states replaced. *)
Definition with_waiting (q : WaitingVehicles) (σ : shared_states) (w : World)
    : World :=
  let x := intersection w in
  {| intersection :=
       {| _id := _id x;
          _streets := _streets x;
          _waitingVehicles := q;
          _isBlocked := _isBlocked x;
          _trafficLight := _trafficLight x |};
     promises := σ;
     cout := cout w;
     _mtx := _mtx w |}.

(** The world with the traffic light and the console replaced. *)
Definition with_light (tl : TrafficLight) (out : list cout_line) (w : World)
    : World :=
  let x := intersection w in
  {| intersection :=
       {| _id := _id x;
          _streets := _streets x;
          _waitingVehicles := _waitingVehicles x;
          _isBlocked := _isBlocked x;
          _trafficLight := tl |};
     promises := promises w;
     cout := out;
     _mtx := _mtx w |}.

Definition with_mtx (locked : bool) (w : World) : World :=
  {| intersection := intersection w;
     promises := promises w;
     cout := cout w;
     _mtx := locked |}.

Definition print (line : cout_line) (w : World) : World :=
  {| intersection := intersection w;
     promises := promises w;
     cout := cout w ++ [line];
     _mtx := _mtx w |}.

(** One turn of the [while (true)] loop of
    [Intersection::processVehicleQueue()], after the 1 ms sleep. *)
Definition processVehicleQueue_iter (w : World) : result World :=
  if (0 <? getSize (waiting w)) && negb (blocked w) then
    let w1 := setIsBlocked true w in
    '(q', σ') ← permitEntryToFirstInQueue (waiting w1) (promises w1);
    Ok (with_waiting q' σ' w1)
  else Ok w.

(** *** addVehicleToQueue, statement by statement *)

(** Where a thread inside [Intersection::addVehicleToQueue] stands; the
    constructors are named after the source line about to run. *)
Inductive pc :=
  | L116_lock
  | L117_print
  | L118_unlock
  | L123_pushBack
  | L126_wait (ftrVehicleAllowedToEnter : Promise)
  | L127_lock
  | L128_print
  | L131_getCurrentPhase
  | L134_waitForGreen
  | L136_unlock
  | Returned.

(** What a statement of [addVehicleToQueue] did. *)
Inductive event :=
  | EvLock
  | EvPrint
  | EvUnlock
  | EvPushBack (prmsVehicleAllowedToEnter : Promise)
  | EvFutureReady (ftrVehicleAllowedToEnter : Promise)
  | EvGetCurrentPhase (phase : TrafficLightPhase)
  | EvReceive (phase : TrafficLightPhase).

(** The next statement of the thread [thread_id] running
    [addVehicleToQueue(vehicle)] from [at_]; [None] when the thread is
    blocked in the given world, or has returned.  Lines 121 to 123 are one
    step: the promise is local to the caller until [pushBack] has stored it,
    so its shared state is created at the moment it is queued. *)
Definition addVehicleToQueue_step (thread_id : nat) (vehicle : Vehicle)
    (at_ : pc) (w : World) : option (event * pc * World) :=
  match at_ with
  | L116_lock =>
      if _mtx w then None else Some (EvLock, L117_print, with_mtx true w)
  | L117_print =>
      Some (EvPrint, L118_unlock,
            print (line_addVehicleToQueue (_id (intersection w)) thread_id) w)
  | L118_unlock => Some (EvUnlock, L123_pushBack, with_mtx false w)
  | L123_pushBack =>
      let '(prms, σ') := promise_new (promises w) in
      Some (EvPushBack prms, L126_wait prms,
            with_waiting (pushBack vehicle prms (waiting w)) σ' w)
  | L126_wait ftr =>
      if future_ready ftr (promises w)
      then Some (EvFutureReady ftr, L127_lock, w)
      else None
  | L127_lock =>
      if _mtx w then None else Some (EvLock, L128_print, with_mtx true w)
  | L128_print =>
      Some (EvPrint, L131_getCurrentPhase,
            print (line_granted (_id (intersection w)) (vehicle_getID vehicle)) w)
  | L131_getCurrentPhase =>
      let phase := getCurrentPhase (light w) in
      Some (EvGetCurrentPhase phase,
            match phase with
            | red => L134_waitForGreen
            | _ => L136_unlock
            end,
            w)
  | L134_waitForGreen =>
      match waitForGreen_turn (light w) with
      | None => None
      | Some (phase, returns, tl') =>
          Some (EvReceive phase,
                if returns then L136_unlock else L134_waitForGreen,
                with_light tl' (cout w) w)
      end
  | L136_unlock => Some (EvUnlock, Returned, with_mtx false w)
  | Returned => None
  end.

(** *** The threads of an intersection *)

Inductive label :=
  | l_vehicle (thread_id : nat) (vehicle : Vehicle) (e : event)
  | l_admission
  | l_departure (vehicle : Vehicle)
  | l_light.

(** One atomic step of some thread: a statement of a vehicle thread inside
    [addVehicleToQueue], a turn of [processVehicleQueue], a call of
    [vehicleHasLeft], or a turn of the light's [cycleThroughPhases]. *)
Inductive sys_step : World → label → World → Prop :=
  | step_vehicle thread_id vehicle at_ w e at' w' :
      addVehicleToQueue_step thread_id vehicle at_ w = Some (e, at', w') →
      sys_step w (l_vehicle thread_id vehicle e) w'
  | step_admission w w' :
      processVehicleQueue_iter w = Ok w' →
      sys_step w l_admission w'
  | step_departure vehicle w :
      sys_step w (l_departure vehicle) (vehicleHasLeft vehicle w)
  | step_light i l l' w tl' out' :
      cycleThroughPhases_iter i (l, light w, cout w) = (l', tl', out') →
      sys_step w l_light (with_light tl' out' w).

(** A run of the thread [thread_id] through [addVehicleToQueue(vehicle)],
    interleaved with steps of the other threads.  The trace lists the
    thread's own statements with the world before and after each. *)
Inductive thread_run (thread_id : nat) (vehicle : Vehicle)
    : World → pc → list (World * event * World) → World → pc → Prop :=
  | run_done w at_ :
      thread_run thread_id vehicle w at_ [] w at_
  | run_own w at_ e at' w' tr w'' at'' :
      addVehicleToQueue_step thread_id vehicle at_ w = Some (e, at', w') →
      thread_run thread_id vehicle w' at' tr w'' at'' →
      thread_run thread_id vehicle w at_ ((w, e, w') :: tr) w'' at''
  | run_other w at_ lbl w' tr w'' at'' :
      sys_step w lbl w' →
      thread_run thread_id vehicle w' at_ tr w'' at'' →
      thread_run thread_id vehicle w at_ tr w'' at''.

(** The worlds an intersection can be in: it is constructed, streets are
    added, and then its threads run. *)
Definition World_init (id : nat) (streets : list Street) : World :=
  {| intersection := foldl (fun x street => addStreet street x)
                           (Intersection_new id) streets;
     promises := [];
     cout := [];
     _mtx := false |}.

Inductive reachable : World → Prop :=
  | reach_init id streets : reachable (World_init id streets)
  | reach_step w lbl w' : reachable w → sys_step w lbl w' → reachable w'.

(** The invariant of the queue inside a world: the two vectors are aligned,
    and the queued promises are distinct and not yet fulfilled. *)
Definition queue_inv (q : WaitingVehicles) (σ : shared_states) : Prop :=
  length (_vehicles q) = length (_promises q) ∧
  NoDup (_promises q) ∧
  Forall (fun p => σ !! p = Some false) (_promises q).

(** A grant seen from outside: the shared state of promise [p] turns
    from not ready to ready between [w] and [w']. *)
Definition grant_issued (w w' : World) (p : Promise) : Prop :=
  promises w !! p = Some false ∧ promises w' !! p = Some true.

(** The events of a trace. *)
Definition events (tr : list (World * event * World)) : list event :=
  (fun x => x.1.2) <$> tr.

(** What each event of [addVehicleToQueue(vehicle)] stands for, in terms of
    the world before and after the statement. *)
Definition event_sound (vehicle : Vehicle) (x : World * event * World) : Prop :=
  let '(w, e, w') := x in
  match e with
  | EvLock => _mtx w = false ∧ w' = with_mtx true w
  | EvPrint => intersection w' = intersection w ∧ promises w' = promises w
  | EvUnlock => w' = with_mtx false w
  | EvPushBack p =>
      p = length (promises w) ∧
      promises w' = promises w ++ [false] ∧
      waiting w' = pushBack vehicle p (waiting w)
  | EvFutureReady p => promises w !! p = Some true ∧ w' = w
  | EvGetCurrentPhase phase => phase = _currentPhase (light w) ∧ w' = w
  | EvReceive phase =>
      receive (_queue (light w)) = Some (phase, _queue (light w')) ∧
      _currentPhase (light w') = _currentPhase (light w)
  end.

(** The statements from the entry of [addVehicleToQueue] up to the read of
    the phase, for the promise [p] the call creates. *)
Definition until_granted (p : Promise) : list event :=
  [EvLock; EvPrint; EvUnlock; EvPushBack p; EvFutureReady p; EvLock; EvPrint].

(** [n] red values received and dropped, then green. *)
Definition waited_for_green (n : nat) : list event :=
  (EvReceive <$> replicate n red) ++ [EvReceive green].

(** The two ways through the light: it shows green when it is read, or it
    shows red and [waitForGreen] receives until a green value comes. *)
Definition through_light (evs : list event) : Prop :=
  evs = [EvGetCurrentPhase green; EvUnlock] ∨
  ∃ n, evs = EvGetCurrentPhase red :: waited_for_green n ++ [EvUnlock].

(** The events still to come for a thread at [at_] that returns. *)
Definition to_return (at_ : pc) (evs : list event) : Prop :=
  match at_ with
  | L116_lock => ∃ p t, evs = until_granted p ++ t ∧ through_light t
  | L117_print => ∃ p t, evs = drop 1 (until_granted p) ++ t ∧ through_light t
  | L118_unlock => ∃ p t, evs = drop 2 (until_granted p) ++ t ∧ through_light t
  | L123_pushBack => ∃ p t, evs = drop 3 (until_granted p) ++ t ∧ through_light t
  | L126_wait p => ∃ t, evs = drop 4 (until_granted p) ++ t ∧ through_light t
  | L127_lock => ∃ t, evs = [EvLock; EvPrint] ++ t ∧ through_light t
  | L128_print => ∃ t, evs = [EvPrint] ++ t ∧ through_light t
  | L131_getCurrentPhase => through_light evs
  | L134_waitForGreen => ∃ n, evs = waited_for_green n ++ [EvUnlock]
  | L136_unlock => evs = [EvUnlock]
  | Returned => evs = []
  end.

(** *** Schedules *)

(** Whose turn it is: the thread under observation runs its next statement,
    or another thread takes a step. *)
Inductive turn :=
  | t_own
  | t_admission
  | t_departure (vehicle : Vehicle)
  | t_light (i : cycle_input) (l : cycle_locals).

(** Runs the thread [thread_id] through [addVehicleToQueue(vehicle)] under
    the given schedule; [None] when a scheduled thread cannot take its
    step. *)
Fixpoint schedule (thread_id : nat) (vehicle : Vehicle) (turns : list turn)
    (w : World) (at_ : pc) : option (list (World * event * World) * World * pc) :=
  match turns with
  | [] => Some ([], w, at_)
  | t_own :: turns' =>
      match addVehicleToQueue_step thread_id vehicle at_ w with
      | None => None
      | Some (e, at', w') =>
          match schedule thread_id vehicle turns' w' at' with
          | None => None
          | Some (tr, w'', at'') => Some ((w, e, w') :: tr, w'', at'')
          end
      end
  | t_admission :: turns' =>
      match processVehicleQueue_iter w with
      | Ok w' => schedule thread_id vehicle turns' w' at_
      | Fail _ => None
      end
  | t_departure other :: turns' =>
      schedule thread_id vehicle turns' (vehicleHasLeft other w) at_
  | t_light i l :: turns' =>
      let '(_, tl', out') := cycleThroughPhases_iter i (l, light w, cout w) in
      schedule thread_id vehicle turns' (with_light tl' out' w) at_
  end.

(** ** The order of broadcasts, as a property of what was sent *)

(** The messages [sent] went into an empty queue, first to last, and then
    [receive] was called some number of times: whenever one call returned
    [sent !! i1] and a later call returned [sent !! i2], [i1 ≤ i2]. *)
Definition observed_in_send_order {T} (sent : list T) : Prop :=
  ∀ n msgs q j k m1 m2 i1 i2,
    receive_n n (sends sent {| _messages := [] |}) = Some (msgs, q) →
    (j < k)%nat →
    msgs !! j = Some m1 → msgs !! k = Some m2 →
    sent !! i1 = Some m1 → sent !! i2 = Some m2 →
    (i1 ≤ i2)%nat.

(** The other phase. *)
Definition opposite (phase : TrafficLightPhase) : TrafficLightPhase :=
  match phase with
  | red => green
  | green => red
  end.

(** ** Sample data *)

Module Sample.
Definition car1 : Vehicle := mkVehicle 101 1.
Definition car2 : Vehicle := mkVehicle 102 2.
Definition car3 : Vehicle := mkVehicle 103 3.

(** Three promises created up front, then: two cars arrive, one is
    granted, a third arrives, one more is granted. *)
Definition states0 : list bool := [false; false; false].
Definition ops : list queue_op :=
  [OpPushBack car1 0%nat; OpPushBack car2 1%nat; OpPermitEntry;
   OpPushBack car3 2%nat; OpPermitEntry].

(** An intersection right after its construction, and after [car1]'s
    thread has pushed its request. *)
Definition world0 : World := World_init 7 [].
Definition world1 : World :=
  with_waiting (pushBack car1 0%nat WaitingVehicles_empty) [false] world0.

(** [car1]'s thread calls [addVehicleToQueue] on the fresh intersection:
    it pushes its request, the admission loop grants it, the thread reads
    a red light and waits; the light toggles after 4000 ms and the thread
    receives green. *)
Definition turns : list turn :=
  [t_own; t_own; t_own; t_own; t_admission; t_own; t_own; t_own; t_own;
   t_light {| now_phase_end := 4000000000; now_restart := 4100000000;
              uni_rng := 5000 |}
           {| phase_duration := 4000; phase_start := 0 |};
   t_own; t_own].
Definition trace : list (World * event * World) :=
  Eval vm_compute in
    match schedule 1 car1 turns world0 L116_lock with
    | Some (tr, _, _) => tr
    | None => []
    end.
Definition world_end : World :=
  Eval vm_compute in
    match schedule 1 car1 turns world0 L116_lock with
    | Some (_, w, _) => w
    | None => world0
    end.

Definition streetA : Street := mkStreet 11 1.
Definition streetB : Street := mkStreet 12 2.
Definition streetC : Street := mkStreet 13 3.
Definition crossing : Intersection :=
  foldl (fun x street => addStreet street x) (Intersection_new 7)
        [streetA; streetB; streetC].

(** Clock readings 1 ms apart up to the end of a 4000 ms phase, then one
    more turn inside the next phase. *)
Definition locals0 : cycle_locals :=
  {| phase_duration := 4000; phase_start := 0 |}.
Definition inputs : list cycle_input :=
  [{| now_phase_end := 1000000; now_restart := 1000000; uni_rng := 4500 |};
   {| now_phase_end := 4000000000; now_restart := 4100000000;
      uni_rng := 6000 |};
   {| now_phase_end := 4101000000; now_restart := 4101000000;
      uni_rng := 5500 |};
   {| now_phase_end := 10100000000; now_restart := 10200000000;
      uni_rng := 4000 |}].
End Sample.

(** ** The rest of the two files *)

(** [bool Intersection::trafficLightIsGreen()] *)
Definition trafficLightIsGreen (x : Intersection) : bool :=
  match getCurrentPhase (_trafficLight x) with
  | green => true
  | _ => false
  end.

(** How a call of [TrafficLight::waitForGreen()] stands after some turns of
    its loop: it has returned, it is blocked inside [receive] on an empty
    queue, or it is still looping. *)
Inductive wait_outcome :=
  | wait_returned (tl : TrafficLight)
  | wait_blocked (tl : TrafficLight)
  | wait_looping (tl : TrafficLight).

(** [void TrafficLight::waitForGreen()] run for at most [turns] turns of its
    [while (true)] loop, with no other thread touching the light. *)
Fixpoint waitForGreen (turns : nat) (tl : TrafficLight) : wait_outcome :=
  match turns with
  | O => wait_looping tl
  | S turns' =>
      match waitForGreen_turn tl with
      | None => wait_blocked tl
      | Some (_, true, tl') => wait_returned tl'
      | Some (_, false, tl') => waitForGreen turns' tl'
      end
  end.

(** Runs of the threads of an intersection, with the labels of the steps
    in the order they were taken. *)
Inductive sys_run : World → list label → World → Prop :=
  | sys_run_nil w : sys_run w [] w
  | sys_run_snoc w lbls w' lbl w'' :
      sys_run w lbls w' → sys_step w' lbl w'' →
      sys_run w (lbls ++ [lbl]) w''.

(** The number of [vehicleHasLeft] calls among the steps. *)
Fixpoint departures (lbls : list label) : nat :=
  match lbls with
  | [] => O
  | l_departure _ :: lbls' => S (departures lbls')
  | _ :: lbls' => departures lbls'
  end.

(** The number of promises fulfilled so far. *)
Fixpoint fulfilled (σ : list bool) : nat :=
  match σ with
  | [] => O
  | true :: σ' => S (fulfilled σ')
  | false :: σ' => fulfilled σ'
  end.

(** The requests of [rs] pushed in order. *)
Definition push_all (rs : list (Vehicle * nat)) : list queue_op :=
  (fun r => OpPushBack r.1 r.2) <$> rs.

(** More sample data: the worlds after [car1] was granted and after [car2]
    queued up behind it, a world whose light shows green, an intersection
    whose light ran [Sample.inputs], and a clock reading 4000 ms into a
    phase. *)
Module Scenario.
Definition world2 : World :=
  with_waiting WaitingVehicles_empty [true] (setIsBlocked true Sample.world1).
Definition world3 : World :=
  with_waiting (pushBack Sample.car2 1%nat WaitingVehicles_empty)
               [true; false] world2.
Definition green_world : World :=
  with_light {| _currentPhase := green; _queue := {| _messages := [green] |} |}
             [line_message_sent green] Sample.world0.
Definition toggle_input : cycle_input :=
  {| now_phase_end := 4000000000; now_restart := 4100000000; uni_rng := 5000 |}.
Definition crossing_later : Intersection :=
  {| _id := 7;
     _streets := [];
     _waitingVehicles := WaitingVehicles_empty;
     _isBlocked := false;
     _trafficLight :=
       (cycleThroughPhases_run Sample.inputs
          (Sample.locals0, TrafficLight_new, [])).1.2 |}.
Definition street_world : World :=
  World_init 7 [Sample.streetA; Sample.streetB; Sample.streetC].

(** An intersection with a second street object that answers the id of
    [Sample.streetB]. *)
Definition streetB_twin : Street := mkStreet 14 2.
Definition twin_crossing : Intersection :=
  foldl (fun x street => addStreet street x) (Intersection_new 7)
        [Sample.streetA; Sample.streetB; streetB_twin; Sample.streetC].
End Scenario.

(** * Properties *)

(** Case analysis on what a statement of [addVehicleToQueue] tested. *)
Ltac step_cases H :=
  repeat match type of H with
    | (if ?b then _ else _) = _ => destruct b eqn:?
    | match ?o with Some _ => _ | None => _ end = _ =>
        destruct o as [[[??]?]|] eqn:?
    | (let '(_, _) := ?x in _) = _ => destruct x eqn:?
    end; simplify_eq.

(** ** The waiting queue *)

Section waiting_vehicles.
Implicit Types (q : WaitingVehicles) (σ : shared_states).
Implicit Types (v : Vehicle) (p : Promise).

Lemma set_value_Ok p σ σ' :
  set_value p σ = Ok σ' ↔ σ !! p = Some false ∧ σ' = <[p:=true]> σ.
Proof.
  unfold set_value. destruct (σ !! p) as [[]|].
- split; [done|by intros [? _]].
- split; [by intros [= <-]|by intros [_ ->]].
- split; [done|by intros [? _]].
Qed.

Lemma permitEntry_Ok q σ q' σ' :
  permitEntryToFirstInQueue q σ = Ok (q', σ') ↔
  ∃ v p, _vehicles q = v :: _vehicles q' ∧
         _promises q = p :: _promises q' ∧
         σ !! p = Some false ∧ σ' = <[p:=true]> σ.
Proof.
  unfold permitEntryToFirstInQueue. destruct q as [vs ps]; simpl. split.
  - destruct ps as [|p ps]; [discriminate|].
    destruct (set_value p σ) as [σ1|] eqn:Hset; [|discriminate].
    apply set_value_Ok in Hset as [Hp ->]. simpl.
    destruct vs as [|v vs]; [discriminate|].
    intros [= <- <-]. by exists v, p.
  - intros (v & p & -> & -> & Hp & ->).
    assert (set_value p σ = Ok (<[p:=true]> σ)) as -> by by apply set_value_Ok.
    simpl. by destruct q'.
Qed.

Lemma permitEntry_front q σ q' σ' :
  permitEntryToFirstInQueue q σ = Ok (q', σ') →
  ∃ v p, front q = Some (v, p) ∧
         _vehicles q = v :: _vehicles q' ∧ _promises q = p :: _promises q'.
Proof.
  intros (v & p & Hv & Hp & _)%permitEntry_Ok. exists v, p.
  unfold front. by rewrite Hv, Hp.
Qed.

Lemma permitEntry_empty_front q σ :
  _promises q = [] → permitEntryToFirstInQueue q σ = Fail EmptyFront.
Proof. unfold permitEntryToFirstInQueue. by intros ->. Qed.

(** The size reported for a queue without vehicles is 0. *)
Lemma getSize_pos_nonempty q : 0 < getSize q → _vehicles q ≠ [].
Proof.
  unfold getSize. intros Hpos Hnil. rewrite Hnil in Hpos.
  vm_compute in Hpos. discriminate.
Qed.

Lemma zip_snoc {A B} (l : list A) (k : list B) a b :
  length l = length k → zip (l ++ [a]) (k ++ [b]) = zip l k ++ [(a, b)].
Proof.
  revert k. induction l as [|x l IH]; intros [|y k] Hlen; simplify_eq/=; auto.
  by rewrite IH.
Qed.

(** The run of a sequence of operations from an aligned queue: the
    grants followed by the requests still queued are the requests that
    were queued at the start followed by the pushed ones. *)
Lemma run_ops_order ops : ∀ q σ q' σ' grants,
  length (_vehicles q) = length (_promises q) →
  run_ops ops q σ = Ok (q', σ', grants) →
  length (_vehicles q') = length (_promises q') ∧
  grants ++ zip (_vehicles q') (_promises q')
    = zip (_vehicles q) (_promises q) ++ pushed ops.
Proof.
  induction ops as [|[v p|] ops IH]; intros q σ q' σ' grants Hlen Hrun;
    simpl in Hrun.
  - simplify_eq. by rewrite app_nil_r.
  - apply IH in Hrun as [Hlen' Heq].
    + split; [done|]. rewrite Heq. simpl. rewrite zip_snoc by done.
      by rewrite <- app_assoc.
    + simpl. rewrite !length_app. simpl. lia.
  - destruct (permitEntryToFirstInQueue q σ) as [[q1 σ1]|] eqn:Hpermit;
      [|discriminate]. simpl in Hrun.
    destruct (run_ops ops q1 σ1) as [[[q2 σ2] g2]|] eqn:Hrest;
      [|discriminate]. simpl in Hrun. simplify_eq.
    destruct (permitEntry_front _ _ _ _ Hpermit) as (v & p & Hfront & Hv & Hp).
    rewrite Hv, Hp in Hlen. simpl in Hlen.
    apply IH in Hrest as [Hlen' Heq]; [|lia].
    split; [done|]. rewrite Hfront, Hv, Hp. simpl. by rewrite Heq.
Qed.

(** The shared states after a run: exactly the granted promises were
    fulfilled, in the order of the grants. *)
Lemma run_ops_states ops : ∀ q σ q' σ' grants,
  run_ops ops q σ = Ok (q', σ', grants) →
  σ' = foldl (fun σ g => <[g.2:=true]> σ) σ grants.
Proof.
  induction ops as [|[v p|] ops IH]; intros q σ q' σ' grants Hrun;
    simpl in Hrun.
  - by simplify_eq.
  - by apply IH in Hrun.
  - destruct (permitEntryToFirstInQueue q σ) as [[q1 σ1]|] eqn:Hpermit;
      [|discriminate]. simpl in Hrun.
    destruct (run_ops ops q1 σ1) as [[[q2 σ2] g2]|] eqn:Hrest;
      [|discriminate]. simpl in Hrun. simplify_eq.
    destruct (permitEntry_front _ _ _ _ Hpermit) as (v & p & Hfront & Hv & Hp).
    apply permitEntry_Ok in Hpermit as (v' & p' & Hv' & Hp' & _ & ->).
    rewrite Hp in Hp'. simplify_eq. rewrite Hfront. simpl.
    by apply IH in Hrest.
Qed.

Lemma fulfilled_stays (grants : list (Vehicle * Promise)) : ∀ σ p,
  σ !! p = Some true →
  foldl (fun σ g => <[g.2:=true]> σ) σ grants !! p = Some true.
Proof.
  induction grants as [|g grants IH]; intros σ p Hp; simpl; [done|].
  apply IH. destruct (decide (g.2 = p)) as [->|Hne].
  - apply list_lookup_insert_eq. by eapply lookup_lt_Some.
  - by rewrite list_lookup_insert_ne.
Qed.

(** Every granted promise is ready after the run, given that every
    grant of the run went through [set_value]. *)
Lemma run_ops_ready ops : ∀ q σ q' σ' grants,
  run_ops ops q σ = Ok (q', σ', grants) →
  Forall (fun g => σ' !! g.2 = Some true) grants.
Proof.
  induction ops as [|[v p|] ops IH]; intros q σ q' σ' grants Hrun;
    simpl in Hrun.
  - simplify_eq. constructor.
  - by apply IH in Hrun.
  - destruct (permitEntryToFirstInQueue q σ) as [[q1 σ1]|] eqn:Hpermit;
      [|discriminate]. simpl in Hrun.
    destruct (run_ops ops q1 σ1) as [[[q2 σ2] g2]|] eqn:Hrest;
      [|discriminate]. simpl in Hrun. simplify_eq.
    destruct (permitEntry_front _ _ _ _ Hpermit) as (v & p & Hfront & Hv & Hp).
    apply permitEntry_Ok in Hpermit as (v' & p' & Hv' & Hp' & Hlook & ->).
    rewrite Hp in Hp'. simplify_eq. rewrite Hfront. simpl.
    constructor; [|by eapply IH].
    simpl. rewrite (run_ops_states _ _ _ _ _ _ Hrest).
    apply fulfilled_stays, list_lookup_insert_eq. by eapply lookup_lt_Some.
Qed.

(** The number of grants of a run is its number of permit operations. *)
Lemma run_ops_grants_length ops : ∀ q σ q' σ' grants,
  run_ops ops q σ = Ok (q', σ', grants) →
  length grants = permits ops.
Proof.
  induction ops as [|[v p|] ops IH]; intros q σ q' σ' grants Hrun;
    simpl in Hrun.
  - by simplify_eq.
  - by eapply IH.
  - destruct (permitEntryToFirstInQueue q σ) as [[q1 σ1]|] eqn:Hpermit;
      [|discriminate]. simpl in Hrun.
    destruct (run_ops ops q1 σ1) as [[[q2 σ2] g2]|] eqn:Hrest;
      [|discriminate]. simpl in Hrun. simplify_eq.
    destruct (permitEntry_front _ _ _ _ Hpermit) as (v & p & -> & _).
    simpl. f_equal. by eapply IH.
Qed.
End waiting_vehicles.

Section waiting_vehicles_runs.
Implicit Types (q : WaitingVehicles) (σ : list bool).

(** A run of [ops1 ++ ops2] is the run of [ops1] followed by the run of
    [ops2]; in particular every prefix of a run that goes through goes
    through. *)
Lemma run_ops_app ops1 ops2 : ∀ q σ,
  run_ops (ops1 ++ ops2) q σ =
    ('(q1, σ1, g1) ← run_ops ops1 q σ;
     '(q2, σ2, g2) ← run_ops ops2 q1 σ1;
     Ok (q2, σ2, g1 ++ g2)).
Proof.
  induction ops1 as [|[v p|] ops1 IH]; intros q σ; simpl.
  - by destruct (run_ops ops2 q σ) as [[[??]?]|].
  - apply IH.
  - destruct (permitEntryToFirstInQueue q σ) as [[q1 σ1]|]; [|done]. simpl.
    rewrite IH.
    destruct (run_ops ops1 q1 σ1) as [[[q2 σ2] g2]|]; [|done]. simpl.
    destruct (run_ops ops2 q2 σ2) as [[[q3 σ3] g3]|]; [|done]. simpl.
    by rewrite app_assoc.
Qed.

Lemma run_ops_prefix ops n q σ q' σ' grants :
  run_ops ops q σ = Ok (q', σ', grants) →
  ∃ q1 σ1 g1, run_ops (take n ops) q σ = Ok (q1, σ1, g1).
Proof.
  rewrite <- (take_drop n ops) at 1. rewrite run_ops_app.
  destruct (run_ops (take n ops) q σ) as [[[q1 σ1] g1]|]; [|discriminate].
  eauto.
Qed.

(** From the empty queue: the grants are the first pushed requests and
    the queue holds the others, in the order they were pushed. *)
Lemma run_ops_take_drop ops σ q' σ' grants :
  run_ops ops WaitingVehicles_empty σ = Ok (q', σ', grants) →
  grants = take (permits ops) (pushed ops) ∧
  zip (_vehicles q') (_promises q') = drop (permits ops) (pushed ops).
Proof.
  intros Hrun.
  pose proof (run_ops_grants_length _ _ _ _ _ _ Hrun) as Hlen.
  apply run_ops_order in Hrun as [_ Heq]; [|done]. simpl in Heq.
  rewrite <- Heq, <- Hlen.
  by rewrite take_app_length, drop_app_length.
Qed.

(** The invariant gives what [permitEntryToFirstInQueue] needs. *)
Lemma queue_inv_permit q σ :
  queue_inv q σ → _vehicles q ≠ [] →
  ∃ q' σ', permitEntryToFirstInQueue q σ = Ok (q', σ') ∧ queue_inv q' σ'.
Proof.
  destruct q as [vs ps]. intros (Hlen & Hnd & Hfalse) Hne. simpl in *.
  destruct vs as [|v vs]; [done|]. destruct ps as [|p ps]; [done|].
  inversion_clear Hfalse as [|? ? Hp Hps]. inversion_clear Hnd as [|? ? Hnotin Hnd'].
  exists {| _vehicles := vs; _promises := ps |}, (<[p:=true]> σ). split.
  - apply permitEntry_Ok. by exists v, p.
  - split; [simpl in *; lia|]. split; [done|]. simpl.
    apply Forall_forall. intros p' Hin.
    rewrite list_lookup_insert_ne by (by intros ->).
    by apply (proj1 (Forall_forall _ _) Hps).
Qed.

Lemma queue_inv_pushBack v q σ :
  queue_inv q σ →
  queue_inv (pushBack v (promise_new σ).1 q) (promise_new σ).2.
Proof.
  intros (Hlen & Hnd & Hfalse). unfold queue_inv, promise_new, pushBack. simpl.
  split; [rewrite !length_app; simpl; lia|]. split.
  - apply NoDup_app. split; [done|]. split; [|apply NoDup_singleton].
    intros p Hin ->%list_elem_of_singleton.
    eapply Forall_forall in Hfalse; [|done].
    apply lookup_lt_Some in Hfalse. lia.
  - apply Forall_app. split.
    + eapply Forall_impl; [done|]. intros p Hp. simpl in Hp.
      by rewrite lookup_app_l by by eapply lookup_lt_Some.
    + constructor; [|constructor].
      rewrite lookup_app_r by done. by rewrite Nat.sub_diag.
Qed.
End waiting_vehicles_runs.

(** ** The worlds of an intersection *)

Section worlds.
Implicit Types (w : World).

(** A statement of [addVehicleToQueue] other than the push leaves the
    queue and the shared states alone. *)
Lemma vehicle_step_waiting tid v at_ w e at' w' :
  addVehicleToQueue_step tid v at_ w = Some (e, at', w') →
  (at_ = L123_pushBack ∧
   waiting w' = pushBack v (promise_new (promises w)).1 (waiting w) ∧
   promises w' = (promise_new (promises w)).2) ∨
  (at_ ≠ L123_pushBack ∧ waiting w' = waiting w ∧ promises w' = promises w).
Proof.
  destruct at_; simpl; intros Hstep;
    repeat match type of Hstep with
           | (if ?b then _ else _) = _ => destruct b
           | match ?o with Some _ => _ | None => _ end = _ => destruct o as [[[??]?]|]
           end; simplify_eq; auto.
Qed.

Lemma vehicle_step_blocked tid v at_ w e at' w' :
  addVehicleToQueue_step tid v at_ w = Some (e, at', w') →
  blocked w' = blocked w.
Proof.
  destruct at_; simpl; intros Hstep;
    repeat match type of Hstep with
           | (if ?b then _ else _) = _ => destruct b
           | match ?o with Some _ => _ | None => _ end = _ => destruct o as [[[??]?]|]
           end; simplify_eq; auto.
Qed.

Lemma light_step_frame i l w l' tl' out' :
  cycleThroughPhases_iter i (l, light w, cout w) = (l', tl', out') →
  waiting (with_light tl' out' w) = waiting w ∧
  promises (with_light tl' out' w) = promises w ∧
  blocked (with_light tl' out' w) = blocked w.
Proof. done. Qed.

(** One turn of the admission loop, case by case. *)
Lemma processVehicleQueue_iter_Ok w w' :
  processVehicleQueue_iter w = Ok w' ↔
  ((getSize (waiting w) ≤ 0 ∨ blocked w = true) ∧ w' = w) ∨
  (0 < getSize (waiting w) ∧ blocked w = false ∧
   ∃ q' σ', permitEntryToFirstInQueue (waiting w) (promises w) = Ok (q', σ') ∧
            w' = with_waiting q' σ' (setIsBlocked true w)).
Proof.
  unfold processVehicleQueue_iter.
  destruct (0 <? getSize (waiting w)) eqn:Hsize;
    [apply Z.ltb_lt in Hsize|apply Z.ltb_ge in Hsize];
    destruct (blocked w) eqn:Hb; simpl.
  - split; [intros [= <-]; auto|]. intros [[_ ->]|(_ & ? & _)]; done.
  - change (waiting (setIsBlocked true w)) with (waiting w).
    change (promises (setIsBlocked true w)) with (promises w).
    destruct (permitEntryToFirstInQueue (waiting w) (promises w))
      as [[q' σ']|] eqn:Hpermit; simpl.
    + split.
      * intros [= <-]. right. eauto 10.
      * intros [[[?|?] _]|(_ & _ & q1 & σ1 & [= <- <-] & ->)];
          [lia|done|done].
    + split; [done|].
      intros [[[?|?] _]|(_ & _ & q1 & σ1 & ? & _)]; [lia|done|done].
  - split; [intros [= <-]; auto|]. intros [[_ ->]|(? & _)]; [done|lia].
  - split; [intros [= <-]; auto|]. intros [[_ ->]|(? & _)]; [done|lia].
Qed.

(** Every step of every thread keeps the queue invariant. *)
Lemma sys_step_queue_inv w lbl w' :
  sys_step w lbl w' →
  queue_inv (waiting w) (promises w) → queue_inv (waiting w') (promises w').
Proof.
  intros Hstep Hinv. destruct Hstep as [tid v at_ w e at' w' Hstep
    |w w' Hstep|v w|i l l' w tl' out' Hstep].
  - apply vehicle_step_waiting in Hstep as [(_ & -> & ->)|(_ & -> & ->)];
      [by apply queue_inv_pushBack|done].
  - apply processVehicleQueue_iter_Ok in Hstep
      as [[_ ->]|(Hsize & _ & q' & σ' & Hpermit & ->)]; [done|].
    apply getSize_pos_nonempty in Hsize.
    destruct (queue_inv_permit _ _ Hinv Hsize) as (q1 & σ1 & Hpermit' & Hinv').
    rewrite Hpermit in Hpermit'. by simplify_eq.
  - done.
  - done.
Qed.

Lemma addStreets_frame streets : ∀ x,
  let x' := foldl (fun x street => addStreet street x) x streets in
  _waitingVehicles x' = _waitingVehicles x ∧
  _isBlocked x' = _isBlocked x ∧
  _trafficLight x' = _trafficLight x.
Proof.
  induction streets as [|s streets IH]; intros x; simpl; [done|].
  apply (IH (addStreet s x)).
Qed.

Lemma World_init_waiting id streets :
  waiting (World_init id streets) = WaitingVehicles_empty.
Proof.
  unfold World_init, waiting. simpl.
  by destruct (addStreets_frame streets (Intersection_new id)) as (-> & _).
Qed.

Lemma reachable_queue_inv w :
  reachable w → queue_inv (waiting w) (promises w).
Proof.
  induction 1 as [id streets|w lbl w' _ IH Hstep].
  - rewrite World_init_waiting. repeat split; simpl; constructor.
  - by eapply sys_step_queue_inv.
Qed.
End worlds.

(** ** Claims about the waiting queue *)

Lemma pushed_app ops1 ops2 : pushed (ops1 ++ ops2) = pushed ops1 ++ pushed ops2.
Proof.
  induction ops1 as [|[v p|] ops1 IH]; simpl; [done| |done]. by rewrite IH.
Qed.

(** C1.  Grants are FIFO by arrival order.  Take any sequence of
    [pushBack] and [permitEntryToFirstInQueue] calls that runs through from
    the empty queue, and stop it after any number [n] of calls.  The grants
    made so far are, in order, the first requests pushed: the i-th grant is
    the i-th pushed request.  The queue holds the other requests pushed so
    far in the order they were pushed.  The promises fulfilled are exactly
    those of the grants, and each of them is ready. *)
Theorem grants_are_fifo (ops : list queue_op) (σ0 σ : list bool)
    (q : WaitingVehicles) (grants : list (Vehicle * nat)) :
  run_ops ops WaitingVehicles_empty σ0 = Ok (q, σ, grants) →
  ∀ n, ∃ q1 σ1 g1,
    run_ops (take n ops) WaitingVehicles_empty σ0 = Ok (q1, σ1, g1) ∧
    g1 = take (permits (take n ops)) (pushed ops) ∧
    (∀ i g, g1 !! i = Some g → pushed ops !! i = Some g) ∧
    zip (_vehicles q1) (_promises q1)
      = drop (permits (take n ops)) (pushed (take n ops)) ∧
    length (_vehicles q1) = length (_promises q1) ∧
    σ1 = foldl (fun σ g => <[g.2:=true]> σ) σ0 g1 ∧
    Forall (fun g => σ1 !! g.2 = Some true) g1.
Proof.
  intros Hrun n.
  destruct (run_ops_prefix _ n _ _ _ _ _ Hrun) as (q1 & σ1 & g1 & Hpre).
  exists q1, σ1, g1. split; [done|].
  destruct (run_ops_take_drop _ _ _ _ _ Hpre) as [Hg Hq].
  pose proof (run_ops_grants_length _ _ _ _ _ _ Hpre) as Hlen.
  assert (g1 = take (permits (take n ops)) (pushed ops)) as Hg'.
  { rewrite <- (take_drop n ops) at 2. rewrite pushed_app.
    rewrite take_app_le; [done|].
    rewrite <- Hlen, Hg at 1. rewrite length_take. lia. }
  split; [done|]. split.
  { intros i g Hi. rewrite Hg' in Hi. by apply lookup_take_Some in Hi as [? _]. }
  split; [done|]. split.
  { by apply run_ops_order in Hpre as [? _]. }
  split; [by eapply run_ops_states|by eapply run_ops_ready].
Qed.

Lemma grants_are_fifo_witness :
  run_ops Sample.ops WaitingVehicles_empty Sample.states0
    = Ok ({| _vehicles := [Sample.car3]; _promises := [2%nat] |},
          [true; true; false],
          [(Sample.car1, 0%nat); (Sample.car2, 1%nat)]) ∧
  ∃ q1 σ1 g1,
    run_ops (take 3 Sample.ops) WaitingVehicles_empty Sample.states0
      = Ok (q1, σ1, g1) ∧
    g1 = take (permits (take 3 Sample.ops)) (pushed Sample.ops) ∧
    (∀ i g, g1 !! i = Some g → pushed Sample.ops !! i = Some g) ∧
    zip (_vehicles q1) (_promises q1)
      = drop (permits (take 3 Sample.ops)) (pushed (take 3 Sample.ops)) ∧
    length (_vehicles q1) = length (_promises q1) ∧
    σ1 = foldl (fun σ g => <[g.2:=true]> σ) Sample.states0 g1 ∧
    Forall (fun g => σ1 !! g.2 = Some true) g1.
Proof.
  split; [reflexivity|].
  apply (grants_are_fifo Sample.ops Sample.states0
           [true; true; false]
           {| _vehicles := [Sample.car3]; _promises := [2%nat] |}
           [(Sample.car1, 0%nat); (Sample.car2, 1%nat)]).
  reflexivity.
Defined.

(** C10.  The two vectors of the container stay aligned.  After any
    sequence of [pushBack] and [permitEntryToFirstInQueue] calls that runs
    through from the empty container, [_vehicles] and [_promises] have the
    same length; and when the next call is a grant, the vehicle it erases
    and the promise it fulfils are the two halves of one pushed request (the
    oldest one not yet granted), after which the vectors are aligned again. *)
Theorem vectors_stay_aligned (ops : list queue_op) (σ0 σ : list bool)
    (q : WaitingVehicles) (grants : list (Vehicle * nat)) :
  run_ops ops WaitingVehicles_empty σ0 = Ok (q, σ, grants) →
  length (_vehicles q) = length (_promises q) ∧
  ∀ q' σ', permitEntryToFirstInQueue q σ = Ok (q', σ') →
    ∃ v p, pushed ops !! permits ops = Some (v, p) ∧
           _vehicles q = v :: _vehicles q' ∧
           _promises q = p :: _promises q' ∧
           σ !! p = Some false ∧ σ' = <[p:=true]> σ ∧
           length (_vehicles q') = length (_promises q').
Proof.
  intros Hrun.
  destruct (run_ops_take_drop _ _ _ _ _ Hrun) as [_ Hq].
  apply run_ops_order in Hrun as [Hlen _]; [|done].
  split; [done|]. intros q' σ' Hpermit.
  apply permitEntry_Ok in Hpermit as (v & p & Hv & Hp & Hlook & ->).
  exists v, p. rewrite Hv, Hp in Hq, Hlen. simpl in Hq, Hlen.
  split.
  { rewrite <- (Nat.add_0_r (permits ops)), <- lookup_drop, <- Hq. done. }
  repeat split; try done. lia.
Qed.

Lemma vectors_stay_aligned_witness :
  run_ops (take 2 Sample.ops) WaitingVehicles_empty Sample.states0
    = Ok ({| _vehicles := [Sample.car1; Sample.car2];
             _promises := [0%nat; 1%nat] |}, Sample.states0, []) ∧
  ∃ v p, pushed (take 2 Sample.ops) !! permits (take 2 Sample.ops) = Some (v, p) ∧
         [Sample.car1; Sample.car2] = v :: [Sample.car2] ∧
         [0%nat; 1%nat] = p :: [1%nat] ∧
         Sample.states0 !! p = Some false ∧
         [true; false; false] = <[p:=true]> Sample.states0 ∧
         length [Sample.car2] = length [1%nat].
Proof.
  split; [reflexivity|].
  apply (proj2 (vectors_stay_aligned (take 2 Sample.ops) Sample.states0
                  Sample.states0
                  {| _vehicles := [Sample.car1; Sample.car2];
                     _promises := [0%nat; 1%nat] |} [] eq_refl)
           {| _vehicles := [Sample.car2]; _promises := [1%nat] |}
           [true; false; false]).
  reflexivity.
Defined.

(** C4.  [permitEntryToFirstInQueue] needs a queue that is not empty.  In
    every world the threads of an intersection can reach: when
    [getSize() > 0] the call goes through (neither front access hits an
    empty vector, and [set_value] does not throw); a turn of the admission
    loop, the only caller, checks [getSize() > 0] first and therefore always
    goes through; and the call on a queue without promises is the
    empty-front failure, which no result value stands for. *)
Theorem permitEntry_precondition (w : World) :
  reachable w →
  (0 < getSize (waiting w) →
   ∃ q' σ', permitEntryToFirstInQueue (waiting w) (promises w) = Ok (q', σ')) ∧
  (∃ w', processVehicleQueue_iter w = Ok w') ∧
  (getSize (waiting w) ≤ 0 → processVehicleQueue_iter w = Ok w) ∧
  (_promises (waiting w) = [] →
   permitEntryToFirstInQueue (waiting w) (promises w) = Fail EmptyFront).
Proof.
  intros Hinv%reachable_queue_inv.
  assert (0 < getSize (waiting w) →
          ∃ q' σ', permitEntryToFirstInQueue (waiting w) (promises w)
                   = Ok (q', σ')) as Hsafe.
  { intros Hne%getSize_pos_nonempty.
    destruct (queue_inv_permit _ _ Hinv Hne) as (q' & σ' & ? & _). eauto. }
  split; [done|]. split; [|split].
  - destruct (decide (0 < getSize (waiting w) ∧ blocked w = false))
      as [[Hsize Hb]|Hno].
    + destruct (Hsafe Hsize) as (q' & σ' & Hpermit).
      exists (with_waiting q' σ' (setIsBlocked true w)).
      apply processVehicleQueue_iter_Ok. right. eauto 10.
    + exists w. apply processVehicleQueue_iter_Ok. left. split; [|done].
      destruct (blocked w); [by right|]. left.
      destruct (decide (0 < getSize (waiting w))); [|lia]. by destruct Hno.
  - intros Hle. apply processVehicleQueue_iter_Ok. left. auto.
  - apply permitEntry_empty_front.
Qed.

Lemma Sample_world1_reachable : reachable Sample.world1.
Proof.
  apply (reach_step Sample.world0 (l_vehicle 1 Sample.car1 (EvPushBack 0%nat))).
  - apply reach_init.
  - by apply (step_vehicle 1 Sample.car1 L123_pushBack Sample.world0
                (EvPushBack 0%nat) (L126_wait 0%nat)).
Defined.

Lemma permitEntry_precondition_witness :
  reachable Sample.world1 ∧
  (0 < getSize (waiting Sample.world1) →
   ∃ q' σ', permitEntryToFirstInQueue (waiting Sample.world1)
              (promises Sample.world1) = Ok (q', σ')) ∧
  (∃ w', processVehicleQueue_iter Sample.world1 = Ok w') ∧
  (getSize (waiting Sample.world1) ≤ 0 →
   processVehicleQueue_iter Sample.world1 = Ok Sample.world1) ∧
  (_promises (waiting Sample.world1) = [] →
   permitEntryToFirstInQueue (waiting Sample.world1) (promises Sample.world1)
     = Fail EmptyFront).
Proof.
  split; [exact Sample_world1_reachable|].
  exact (permitEntry_precondition Sample.world1 Sample_world1_reachable).
Defined.

(** ** Claims about the intersection *)

(** C2.  The occupied gate.  In every step of the threads of an
    intersection: a promise is fulfilled only by a turn of the admission
    loop, and that turn starts with [_isBlocked = false], ends with
    [_isBlocked = true] and fulfils the promise at the front of the queue;
    [_isBlocked] goes from false to true only in such a granting turn; it
    goes from true to false only in [vehicleHasLeft]; and [vehicleHasLeft]
    always leaves it false. *)
Theorem occupied_gate (w : World) (lbl : label) (w' : World) :
  sys_step w lbl w' →
  (∀ p, grant_issued w w' p →
        lbl = l_admission ∧ blocked w = false ∧ blocked w' = true ∧
        head (_promises (waiting w)) = Some p) ∧
  (blocked w = false → blocked w' = true →
   lbl = l_admission ∧ ∃ p, grant_issued w w' p) ∧
  (blocked w = true → blocked w' = false → ∃ vehicle, lbl = l_departure vehicle) ∧
  (∀ vehicle, lbl = l_departure vehicle → blocked w' = false).
Proof.
  intros Hstep.
  assert (∀ lbl', promises w' = promises w ∨ promises w' = promises w ++ [false] →
          ∀ p, grant_issued w w' p → lbl' = l_admission ∧ blocked w = false ∧ blocked w' = true ∧
        head (_promises (waiting w)) = Some p) as Hnogrant.
  { intros lbl' Hσ p [Hp Hp']. exfalso. destruct Hσ as [Hσ|Hσ]; rewrite Hσ in Hp'.
    - congruence.
    - rewrite lookup_app_l in Hp' by (by eapply lookup_lt_Some). congruence. }
  destruct Hstep as [tid v at_ w e at' w' Hstep
    |w w' Hstep|v w|i l l' w tl' out' Hstep].
  - pose proof (vehicle_step_blocked _ _ _ _ _ _ _ Hstep) as Hb.
    split; [|split; [|split]]; [|congruence..|done].
    apply Hnogrant.
    apply vehicle_step_waiting in Hstep as [(_ & _ & Hσ)|(_ & _ & Hσ)]; auto.
  - apply processVehicleQueue_iter_Ok in Hstep
      as [[_ ->]|(Hsize & Hb & q' & σ' & Hpermit & ->)].
    + split; [|split; [|split]]; [|congruence..|done]. apply Hnogrant. auto.
    + apply permitEntry_Ok in Hpermit as (v0 & p0 & Hv & Hp0 & Hlook & ->).
      assert (grant_issued w (with_waiting q' (<[p0:=true]> (promises w)) (setIsBlocked true w)) p0) as Hgrant.
      { split; [done|]. simpl.
        apply list_lookup_insert_eq. by eapply lookup_lt_Some. }
      split; [|split; [|split]]; [|eauto|unfold blocked; simpl; congruence|done].
      intros p [Hp Hp']. split; [done|]. split; [done|]. split; [done|].
      rewrite Hp0. simpl. f_equal.
      destruct (decide (p0 = p)) as [|Hne]; [done|]. exfalso.
      simpl in Hp'. rewrite list_lookup_insert_ne in Hp' by done. congruence.
  - split; [|split; [|split]]; [|unfold blocked; simpl; congruence|eauto|done].
    apply Hnogrant. auto.
  - split; [|split; [|split]]; [|unfold blocked; simpl; congruence..|done].
    apply Hnogrant. auto.
Qed.

Lemma occupied_gate_witness :
  sys_step Sample.world1 l_admission
    (with_waiting WaitingVehicles_empty [true] (setIsBlocked true Sample.world1)) ∧
  blocked Sample.world1 = false ∧
  blocked (with_waiting WaitingVehicles_empty [true]
             (setIsBlocked true Sample.world1)) = true ∧
  head (_promises (waiting Sample.world1)) = Some 0%nat.
Proof.
  assert (sys_step Sample.world1 l_admission
            (with_waiting WaitingVehicles_empty [true]
               (setIsBlocked true Sample.world1))) as Hstep.
  { apply step_admission. reflexivity. }
  split; [exact Hstep|].
  apply (proj1 (occupied_gate _ _ _ Hstep) 0%nat). split; reflexivity.
Defined.

(** C7.  [vehicleHasLeft] clears the gate and nothing else of the
    intersection: afterwards [_isBlocked] is false whatever it was; the
    queue, the street list, the traffic light, the id, the shared states of
    the promises and the mutex are as before; the console has the one line
    [setIsBlocked] writes; and the result does not depend on the vehicle
    passed. *)
Theorem vehicleHasLeft_frame (vehicle : Vehicle) (w : World) :
  blocked (vehicleHasLeft vehicle w) = false ∧
  waiting (vehicleHasLeft vehicle w) = waiting w ∧
  _streets (intersection (vehicleHasLeft vehicle w)) = _streets (intersection w) ∧
  light (vehicleHasLeft vehicle w) = light w ∧
  _id (intersection (vehicleHasLeft vehicle w)) = _id (intersection w) ∧
  promises (vehicleHasLeft vehicle w) = promises w ∧
  _mtx (vehicleHasLeft vehicle w) = _mtx w ∧
  cout (vehicleHasLeft vehicle w)
    = cout w ++ [line_isBlocked (_id (intersection w)) false] ∧
  ∀ other : Vehicle, vehicleHasLeft other w = vehicleHasLeft vehicle w.
Proof. by repeat split. Qed.

Lemma queryStreets_loop (incoming : Street) (streets : list Street) :
  ∀ outgoings,
    foldl (fun outgoings it =>
             if negb (street_getID incoming =? street_getID it)%nat
             then outgoings ++ [it]
             else outgoings)
          outgoings streets
    = outgoings ++
        filter (fun it => street_getID incoming ≠ street_getID it) streets.
Proof.
  induction streets as [|it streets IH]; intros outgoings; simpl.
  - by rewrite app_nil_r.
  - rewrite IH. destruct (Nat.eqb_spec (street_getID incoming) (street_getID it))
      as [Heq|Hne]; simpl.
    + by rewrite filter_cons_False by (by intros ?).
    + rewrite filter_cons_True by done. by rewrite <- app_assoc.
Qed.

Lemma queryStreets_by_id (incoming : Street) (x : Intersection) :
  queryStreets incoming x
  = (filter (fun it => street_getID incoming ≠ street_getID it) (_streets x), x).
Proof. unfold queryStreets. by rewrite queryStreets_loop. Qed.

(** C8, as the claim states it, fails: an intersection can hold another
    street object answering the id of the incoming one, and [queryStreets]
    leaves that one out too although it is not the incoming street. *)
Lemma queryStreets_by_identity_counterexample :
  queryStreets Sample.streetB Scenario.twin_crossing
  ≠ (filter (fun it => it ≠ Sample.streetB) (_streets Scenario.twin_crossing),
     Scenario.twin_crossing).
Proof. vm_compute. discriminate. Qed.

(** C8, amended.  [queryStreets] returns exactly the streets of the
    intersection whose [getID()] differs from the incoming street's, in
    their order in [_streets], and leaves the intersection as it was. *)
Theorem queryStreets_all_but_incoming_id (incoming : Street) (x : Intersection) :
  queryStreets incoming x
  = (filter (fun it => street_getID it ≠ street_getID incoming) (_streets x), x).
Proof.
  rewrite queryStreets_by_id. f_equal.
  apply list_filter_iff. intros it. split; intros H Heq; by apply H.
Qed.

(** Where no other street of [_streets] shares the id of the incoming
    one, these are the streets other than the incoming street itself. *)
Theorem queryStreets_all_but_incoming (incoming : Street) (x : Intersection) :
  (∀ it, it ∈ _streets x →
         street_getID it = street_getID incoming → it = incoming) →
  queryStreets incoming x = (filter (fun it => it ≠ incoming) (_streets x), x).
Proof.
  intros Hid. rewrite queryStreets_by_id. f_equal.
  induction (_streets x) as [|it l IH]; [done|].
  rewrite !filter_cons.
  rewrite IH by (intros it' Hin; apply Hid; by right).
  destruct (decide (street_getID incoming ≠ street_getID it)) as [Hne|Heq],
    (decide (it ≠ incoming)) as [Hne'|Heq']; try done.
  - exfalso. apply Hne. f_equal. symmetry. by apply dec_stable.
  - exfalso. apply Hne', Hid; [by left|].
    symmetry. by apply dec_stable.
Qed.

Lemma queryStreets_all_but_incoming_witness :
  (∀ it, it ∈ _streets Sample.crossing →
         street_getID it = street_getID Sample.streetB → it = Sample.streetB) ∧
  queryStreets Sample.streetB Sample.crossing
    = ([Sample.streetA; Sample.streetC], Sample.crossing).
Proof.
  assert (∀ it, it ∈ _streets Sample.crossing →
            street_getID it = street_getID Sample.streetB →
            it = Sample.streetB) as Hid.
  { intros it Hin Hid.
    repeat (apply elem_of_cons in Hin as [->|Hin]); try done.
    by apply elem_of_nil in Hin. }
  split; [exact Hid|].
  exact (queryStreets_all_but_incoming Sample.streetB Sample.crossing Hid).
Defined.

Section add_vehicle.
Context (thread_id : nat) (vehicle : Vehicle).

(** When a statement of [addVehicleToQueue] can run: the two locks need
    the mutex free, the wait needs the future ready, and a turn of
    [waitForGreen] needs a message in the queue. *)
Lemma addVehicleToQueue_step_enabled at_ w :
  is_Some (addVehicleToQueue_step thread_id vehicle at_ w) ↔
  match at_ with
  | L116_lock | L127_lock => _mtx w = false
  | L126_wait ftr => promises w !! ftr = Some true
  | L134_waitForGreen => _messages (_queue (light w)) ≠ []
  | Returned => False
  | _ => True
  end.
Proof.
  assert (∀ {A} (l : list A), l ≠ [] → is_Some (back l)) as Hback.
  { intros A l. induction l as [|m [|m' l] IH]; intros Hne; simpl; [done|eauto|].
    by apply IH. }
  unfold is_Some.
  destruct at_; simpl; unfold future_ready, waitForGreen_turn, receive;
    try (split; [done|by eauto]).
  - destruct (_mtx w); split; intros H; try done; try (by destruct H); eauto.
  - destruct (promises w !! _) as [[]|]; split; intros H; try done;
      try (by destruct H); eauto.
  - destruct (_mtx w); split; intros H; try done; try (by destruct H); eauto.
  - split.
    + intros [x Hx] Hnil. rewrite Hnil in Hx. done.
    + intros [x ->]%Hback. eauto.
  - split; [by intros [? ?]|done].
Qed.

Lemma addVehicleToQueue_step_sound at_ w e at' w' :
  addVehicleToQueue_step thread_id vehicle at_ w = Some (e, at', w') →
  event_sound vehicle (w, e, w').
Proof.
  destruct at_; simpl; intros Hstep; step_cases Hstep; simpl; auto.
  - unfold future_ready in *.
    by destruct (promises w' !! _) as [[]|].
  - unfold waitForGreen_turn in *.
    destruct (receive (_queue (light w))) as [[ph q']|]; by simplify_eq.
Qed.

Lemma addVehicleToQueue_step_to_return at_ w e at' w' evs :
  addVehicleToQueue_step thread_id vehicle at_ w = Some (e, at', w') →
  to_return at' evs → to_return at_ (e :: evs).
Proof.
  destruct at_; simpl; intros Hstep; step_cases Hstep; simpl;
    try (intros (p & t & -> & Ht); by exists p, t);
    try (intros (t & -> & Ht); by eexists).
  - intros (t & -> & Ht). by exists (length (promises w)), t.
  - intros Ht. by exists evs.
  - unfold getCurrentPhase. destruct (_currentPhase (light w')); simpl.
    + intros (n & ->). right. by exists n.
    + intros ->. by left.
  - match goal with
    | H : waitForGreen_turn _ = Some _ |- _ =>
        unfold waitForGreen_turn in H;
        destruct (receive (_queue (light w))) as [[ph q']|]; simplify_eq
    end.
    match goal with |- context [EvReceive ?ph] => destruct ph end; simpl.
    + intros (n & ->). by exists (S n).
    + intros ->. by exists 0%nat.
  - by intros ->.
Qed.

Lemma thread_run_to_return w at_ tr w' at' :
  thread_run thread_id vehicle w at_ tr w' at' →
  Forall (event_sound vehicle) tr ∧
  (at' = Returned → to_return at_ (events tr)).
Proof.
  induction 1 as [w at_|w at_ e at' w' tr w'' at'' Hstep _ [IHs IHr]
                 |w at_ lbl w' tr w'' at'' _ _ IH]; [| |done].
  - split; [constructor|]. by intros ->.
  - split.
    + constructor; [by eapply addVehicleToQueue_step_sound|done].
    + intros Hret. eapply addVehicleToQueue_step_to_return; eauto.
Qed.
End add_vehicle.

(** C3.  [addVehicleToQueue] returns only after both gates.  Whatever the
    other threads do in between, a call that returns has run exactly these
    statements: it pushed a request with a fresh promise that was not
    ready, passed the wait on that promise's future when the shared state
    was ready, read the phase of the light, and then either the phase read
    was green and it returned at once, or the phase read was red and
    [waitForGreen] received some number of red values, dropped each of
    them, and returned on the first green value received.  Every event of
    the trace reports what the statement did to the world. *)
Theorem addVehicleToQueue_returns_after_both_gates
    (thread_id : nat) (vehicle : Vehicle)
    (w0 : World) (tr : list (World * event * World)) (w : World) :
  thread_run thread_id vehicle w0 L116_lock tr w Returned →
  Forall (event_sound vehicle) tr ∧
  ∃ p, events tr = until_granted p ++ [EvGetCurrentPhase green; EvUnlock] ∨
       ∃ n, events tr = until_granted p ++ [EvGetCurrentPhase red]
                          ++ (EvReceive <$> replicate n red)
                          ++ [EvReceive green; EvUnlock].
Proof.
  intros [Hsound Hret]%thread_run_to_return. split; [done|].
  destruct (Hret eq_refl) as (p & t & -> & [->|[n ->]]); exists p; [by left|].
  right. exists n. unfold waited_for_green. simpl. by rewrite <- app_assoc.
Qed.

Lemma schedule_thread_run thread_id vehicle turns : ∀ w at_ tr w' at',
  schedule thread_id vehicle turns w at_ = Some (tr, w', at') →
  thread_run thread_id vehicle w at_ tr w' at'.
Proof.
  induction turns as [|[| |other|i l] turns IH]; intros w at_ tr w' at' Hrun;
    cbn [schedule] in Hrun.
  - simplify_eq. constructor.
  - destruct (addVehicleToQueue_step thread_id vehicle at_ w)
      as [[[e at1] w1]|] eqn:Hstep; [|done].
    destruct (schedule thread_id vehicle turns w1 at1)
      as [[[tr1 w2] at2]|] eqn:Hrest; [|done].
    simplify_eq. eapply run_own; eauto.
  - destruct (processVehicleQueue_iter w) as [w1|] eqn:Hstep; [|done].
    eapply run_other; [by apply step_admission|]. by apply IH.
  - eapply run_other; [apply (step_departure other)|]. by apply IH.
  - destruct (cycleThroughPhases_iter i (l, light w, cout w))
      as [[l1 tl1] out1] eqn:Hstep.
    eapply run_other; [by eapply step_light|]. by apply IH.
Qed.

Lemma Sample_run :
  thread_run 1 Sample.car1 Sample.world0 L116_lock
    Sample.trace Sample.world_end Returned.
Proof. apply (schedule_thread_run 1 Sample.car1 Sample.turns). reflexivity. Qed.

Lemma addVehicleToQueue_returns_after_both_gates_witness :
  thread_run 1 Sample.car1 Sample.world0 L116_lock
    Sample.trace Sample.world_end Returned ∧
  Forall (event_sound Sample.car1) Sample.trace ∧
  ∃ p, events Sample.trace
         = until_granted p ++ [EvGetCurrentPhase green; EvUnlock] ∨
       ∃ n, events Sample.trace
              = until_granted p ++ [EvGetCurrentPhase red]
                  ++ (EvReceive <$> replicate n red)
                  ++ [EvReceive green; EvUnlock].
Proof.
  split; [exact Sample_run|].
  exact (addVehicleToQueue_returns_after_both_gates 1 Sample.car1
           Sample.world0 Sample.trace Sample.world_end Sample_run).
Defined.

(** ** Claims about the message queue *)

Section message_queue.
Context {T : Type}.
Implicit Types (l sent msgs : list T) (q : MessageQueue T).

Lemma back_snoc l x : back (l ++ [x]) = Some x.
Proof.
  induction l as [|y l IH]; [done|]. simpl. rewrite IH.
  by destruct l.
Qed.

Lemma pop_back_snoc l x : pop_back (l ++ [x]) = l.
Proof.
  induction l as [|y l IH]; [done|]. simpl. rewrite IH.
  by destruct l.
Qed.

Lemma sends_messages sent : ∀ q, _messages (sends sent q) = _messages q ++ sent.
Proof.
  unfold sends. induction sent as [|m sent IH]; intros q; simpl.
  - by rewrite app_nil_r.
  - rewrite IH. simpl. by rewrite <- app_assoc.
Qed.

Lemma receive_snoc l x :
  receive {| _messages := l ++ [x] |} = Some (x, {| _messages := l |}).
Proof. unfold receive. simpl. by rewrite back_snoc, pop_back_snoc. Qed.

Lemma receive_empty : receive (T:=T) {| _messages := [] |} = None.
Proof. done. Qed.

(** [n] receives in a row from a queue holding [l]: the last [n]
    elements of [l], last first; they block when [l] has fewer. *)
Lemma receive_n_lifo l : ∀ n,
  receive_n n {| _messages := l |} =
    if decide (n ≤ length l)%nat
    then Some (take n (reverse l), {| _messages := take (length l - n) l |})
    else None.
Proof.
  induction l as [|x l IH] using rev_ind; intros [|n]; simpl; try done.
  - by rewrite Nat.sub_0_r, firstn_all.
  - rewrite receive_snoc, IH, reverse_snoc, length_app. simpl.
    destruct (decide (n ≤ length l)%nat), (decide (S n ≤ length l + 1)%nat);
      try lia; [|done].
    do 3 f_equal. rewrite take_app_le by lia. f_equal. lia.
Qed.
End message_queue.

(** C5, as the claim states it, fails: after red and then green were sent,
    the first [receive] returns green (sent second) and the next one red
    (sent first). *)
Lemma in_send_order_counterexample :
  ¬ observed_in_send_order [red; green].
Proof.
  intros H.
  specialize (H 2%nat [green; red] {| _messages := [] |} 0%nat 1%nat
                green red 1%nat 0%nat eq_refl).
  assert (1 ≤ 0)%nat as Hle by (apply H; [lia|done..]). lia.
Qed.

(** C5, amended.  [receive] hands out the most recently sent value first.
    After the values [sent] went into an empty queue, [n] calls of
    [receive] in a row, [n] at most the number of values sent, return the
    last [n] values sent, latest first, and leave the older ones in the
    queue; with more calls than values, one of the calls blocks.  So when
    the values sent are pairwise distinct, of two such calls the earlier
    one returns a value that was sent after the value the later one
    returns. *)
Theorem receive_most_recent_first {T} (sent : list T) (n : nat) :
  receive_n n (sends sent {| _messages := [] |})
  = (if decide (n ≤ length sent)%nat
     then Some (take n (reverse sent),
                {| _messages := take (length sent - n) sent |})
     else None) ∧
  (NoDup sent →
   ∀ j k m1 m2 i1 i2,
     (j < k)%nat →
     take n (reverse sent) !! j = Some m1 →
     take n (reverse sent) !! k = Some m2 →
     sent !! i1 = Some m1 → sent !! i2 = Some m2 →
     (i2 < i1)%nat).
Proof.
  assert (sends sent {| _messages := [] |} = {| _messages := sent |}) as ->.
  { pose proof (sends_messages sent {| _messages := [] |}) as H.
    destruct (sends sent _). simpl in H. by rewrite H. }
  split; [apply receive_n_lifo|].
  intros Hnd j k m1 m2 i1 i2 Hjk Hj Hk Hi1 Hi2.
  apply lookup_take_Some in Hj as [Hj Hjn]. apply lookup_take_Some in Hk as [Hk Hkn].
  pose proof (lookup_lt_Some _ _ _ Hj) as Hjl. pose proof (lookup_lt_Some _ _ _ Hk) as Hkl.
  rewrite length_reverse in Hjl, Hkl.
  rewrite reverse_lookup in Hj by done. rewrite reverse_lookup in Hk by done.
  rewrite (NoDup_lookup _ _ _ _ Hnd Hi1 Hj), (NoDup_lookup _ _ _ _ Hnd Hi2 Hk). lia.
Qed.

Lemma receive_most_recent_first_witness :
  receive_n 2 (sends [red; green] {| _messages := [] |})
    = Some ([green; red], {| _messages := [] |}) ∧
  (NoDup [red; green] →
   ∀ j k m1 m2 i1 i2,
     (j < k)%nat →
     [green; red] !! j = Some m1 → [green; red] !! k = Some m2 →
     [red; green] !! i1 = Some m1 → [red; green] !! i2 = Some m2 →
     (i2 < i1)%nat).
Proof. exact (receive_most_recent_first [red; green] 2). Defined.

(** ** Claims about the traffic light *)

Section traffic_light.
Implicit Types (i : cycle_input) (l : cycle_locals) (tl : TrafficLight).
Implicit Types (out : list cout_line).

(** One turn of the loop, by cases on the elapsed time. *)
Lemma cycleThroughPhases_iter_cases i l tl out :
  (time_elapsed (phase_start l) (now_phase_end i) < phase_duration l ∧
   cycleThroughPhases_iter i (l, tl, out) = (l, tl, out)) ∨
  (phase_duration l ≤ time_elapsed (phase_start l) (now_phase_end i) ∧
   cycleThroughPhases_iter i (l, tl, out) =
     ({| phase_duration := uni_rng i; phase_start := now_restart i |},
      {| _currentPhase := opposite (_currentPhase tl);
         _queue := send (opposite (_currentPhase tl)) (_queue tl) |},
      out ++ [line_message_sent (opposite (_currentPhase tl))])).
Proof.
  unfold cycleThroughPhases_iter.
  destruct (Z.leb_spec (phase_duration l)
              (time_elapsed (phase_start l) (now_phase_end i))); [right|left].
  - split; [done|]. by destruct (_currentPhase tl).
  - done.
Qed.

Lemma alternation_snoc n : ∀ from,
  alternation from (S n)
  = alternation from n ++ [opposite (Nat.iter n opposite from)].
Proof.
  induction n as [|n IH]; intros from; [by destruct from|].
  change (alternation from (S (S n)))
    with (opposite from :: alternation (opposite from) (S n)).
  rewrite IH. simpl. do 3 f_equal.
  clear IH. induction n as [|n IH]; [done|]. simpl. by rewrite IH.
Qed.

End traffic_light.

(** Milliseconds elapsed against clock ticks. *)
Lemma quot_ticks_le (d x : Z) :
  0 < d → (d ≤ x `quot` ticks_per_ms ↔ d * ticks_per_ms ≤ x).
Proof.
  intros Hd. unfold ticks_per_ms.
  destruct (Z_le_gt_dec 0 x) as [Hx|Hx].
  - rewrite Z.quot_div_nonneg by lia. split; intros H.
    + pose proof (Z.mul_div_le x 1000000). lia.
    + apply Z.div_le_lower_bound; lia.
  - assert (x `quot` 1000000 ≤ 0) as Hq.
    { replace x with (- - x) by lia. rewrite Z.quot_opp_l by lia.
      pose proof (Z.quot_pos (- x) 1000000). lia. }
    lia.
Qed.




Example Sample_light_run :
  cycleThroughPhases_run Sample.inputs (Sample.locals0, TrafficLight_new, [])
  = ({| phase_duration := 4000; phase_start := 10200000000 |},
     {| _currentPhase := red; _queue := {| _messages := [green; red] |} |},
     [line_message_sent green; line_message_sent red]).
Proof. reflexivity. Qed.

(** The green value [waitForGreen] returns on can be an old one: when the
    light went green and red again before the thread reads the phase, the
    thread reads red, receives the red value sent last, drops it, then
    receives the older green value and returns while the light shows red. *)
Example waitForGreen_returns_on_stale_green :
  let toggle start :=
    t_light {| now_phase_end := start + 4000000000;
               now_restart := start + 4100000000; uni_rng := 4000 |}
            {| phase_duration := 4000; phase_start := start |} in
  ∃ tr w,
    schedule 1 Sample.car1
      ([t_own; t_own; t_own; t_own; t_admission;
        toggle 0; toggle 4100000000;
        t_own; t_own; t_own; t_own; t_own; t_own; t_own])
      Sample.world0 L116_lock = Some (tr, w, Returned) ∧
    drop 7 (events tr)
      = [EvGetCurrentPhase red; EvReceive red; EvReceive green; EvUnlock] ∧
    getCurrentPhase (light w) = red.
Proof. simpl. eexists _, _. split; [reflexivity|]. split; reflexivity. Qed.

(** * Further properties of the code *)

(** ** The waiting queue *)

Lemma to_int_small (z : Z) : -2 ^ 31 ≤ z < 2 ^ 31 → to_int z = z.
Proof.
  intros Hz. unfold to_int. rewrite Z.mod_small by lia. lia.
Qed.

(** [getSize()] is the number of waiting vehicles as long as that number
    fits an [int]; it is 0 exactly for the empty queue, and a [pushBack]
    raises it by one. *)
Theorem getSize_counts (q : WaitingVehicles) (v : Vehicle) (p : nat) :
  Z.of_nat (length (_vehicles q)) < 2 ^ 31 - 1 →
  getSize q = Z.of_nat (length (_vehicles q)) ∧
  (getSize q = 0 ↔ _vehicles q = []) ∧
  getSize (pushBack v p q) = getSize q + 1.
Proof.
  intros Hlen. unfold getSize, pushBack. simpl. rewrite length_app. simpl.
  rewrite !to_int_small by lia. split; [done|]. split; [|lia].
  destruct (_vehicles q); simpl; [done|]. split; [lia|done].
Qed.

Lemma getSize_counts_witness :
  Z.of_nat (length (_vehicles (pushBack Sample.car1 0%nat WaitingVehicles_empty)))
    < 2 ^ 31 - 1 ∧
  getSize (pushBack Sample.car2 1%nat
             (pushBack Sample.car1 0%nat WaitingVehicles_empty)) = 1 + 1.
Proof.
  assert (Z.of_nat (length (_vehicles
            (pushBack Sample.car1 0%nat WaitingVehicles_empty))) < 2 ^ 31 - 1)
    as H by (vm_compute; reflexivity).
  split; [exact H|].
  exact (proj2 (proj2 (getSize_counts
           (pushBack Sample.car1 0%nat WaitingVehicles_empty)
           Sample.car2 1%nat H))).
Defined.

Lemma run_push_all rs : ∀ q σ,
  run_ops (push_all rs) q σ
  = Ok ({| _vehicles := _vehicles q ++ rs.*1;
           _promises := _promises q ++ rs.*2 |}, σ, []).
Proof.
  induction rs as [|[v p] rs IH]; intros [vs ps] σ; simpl.
  - by rewrite !app_nil_r.
  - unfold push_all in IH. rewrite IH. simpl. by rewrite <- !app_assoc.
Qed.

Lemma run_permit_all (vs : list Vehicle) : ∀ (ps : list nat) σ,
  length vs = length ps → NoDup ps →
  Forall (fun p => σ !! p = Some false) ps →
  run_ops (replicate (length vs) OpPermitEntry)
          {| _vehicles := vs; _promises := ps |} σ
  = Ok (WaitingVehicles_empty,
        foldl (fun σ g => <[g.2:=true]> σ) σ (zip vs ps),
        zip vs ps).
Proof.
  induction vs as [|v vs IH]; intros [|p ps] σ Hlen Hnd Hfalse;
    simplify_eq/=; [done|].
  inversion_clear Hnd as [|? ? Hnotin Hnd'].
  inversion_clear Hfalse as [|? ? Hp Hps].
  unfold permitEntryToFirstInQueue, set_value. simpl. rewrite Hp. simpl.
  rewrite IH; [done|done|done|].
  apply Forall_forall. intros p' Hin.
  rewrite list_lookup_insert_ne by (by intros ->).
  by apply (proj1 (Forall_forall _ _) Hps).
Qed.

(** Pushing requests with distinct, unfulfilled promises onto the empty
    queue and then granting as many times as there are requests goes
    through: it grants the requests in the order they were pushed, fulfils
    their promises and leaves the queue empty. *)
Theorem push_then_permit_all (rs : list (Vehicle * nat)) (σ : list bool) :
  NoDup rs.*2 →
  Forall (fun r => σ !! r.2 = Some false) rs →
  run_ops (push_all rs ++ replicate (length rs) OpPermitEntry)
          WaitingVehicles_empty σ
  = Ok (WaitingVehicles_empty, foldl (fun σ g => <[g.2:=true]> σ) σ rs, rs).
Proof.
  intros Hnd Hfalse. rewrite run_ops_app, run_push_all. simpl.
  replace (length rs) with (length rs.*1) by apply length_fmap.
  rewrite run_permit_all.
  - simpl. by rewrite zip_fst_snd.
  - by rewrite !length_fmap.
  - done.
  - by apply Forall_fmap.
Qed.

Lemma push_then_permit_all_witness :
  NoDup [(Sample.car1, 0%nat); (Sample.car2, 1%nat); (Sample.car3, 2%nat)].*2 ∧
  run_ops (push_all [(Sample.car1, 0%nat); (Sample.car2, 1%nat);
                     (Sample.car3, 2%nat)]
             ++ replicate 3 OpPermitEntry)
          WaitingVehicles_empty Sample.states0
  = Ok (WaitingVehicles_empty, [true; true; true],
        [(Sample.car1, 0%nat); (Sample.car2, 1%nat); (Sample.car3, 2%nat)]).
Proof.
  assert (NoDup [(Sample.car1, 0%nat); (Sample.car2, 1%nat);
                 (Sample.car3, 2%nat)].*2) as Hnd.
  { refine (bool_decide_unpack _ _). vm_compute. exact I. }
  split; [exact Hnd|].
  apply (push_then_permit_all
           [(Sample.car1, 0%nat); (Sample.car2, 1%nat); (Sample.car3, 2%nat)]
           Sample.states0 Hnd).
  repeat constructor.
Defined.

(** A grant readies the future of the request at the front and no other:
    after [permitEntryToFirstInQueue] a future is ready exactly when it is
    the front promise's or was ready before; and no promise is created or
    dropped. *)
Theorem permitEntry_wakes_one (q q' : WaitingVehicles) (σ σ' : list bool) :
  permitEntryToFirstInQueue q σ = Ok (q', σ') →
  ∃ p, head (_promises q) = Some p ∧
       future_ready p σ = false ∧
       length σ' = length σ ∧
       ∀ p', future_ready p' σ' = true ↔ p' = p ∨ future_ready p' σ = true.
Proof.
  intros (v & p & Hv & Hp & Hlook & ->)%permitEntry_Ok. exists p.
  split; [by rewrite Hp|]. unfold future_ready. rewrite Hlook.
  split; [done|]. split; [by rewrite length_insert|].
  intros p'. destruct (decide (p' = p)) as [->|Hne].
  - rewrite list_lookup_insert_eq by (by eapply lookup_lt_Some).
    split; [by left|done].
  - rewrite list_lookup_insert_ne by done.
    split; [by right|by intros [?|?]].
Qed.

Lemma permitEntry_wakes_one_witness :
  permitEntryToFirstInQueue
    {| _vehicles := [Sample.car2; Sample.car3]; _promises := [1%nat; 2%nat] |}
    [true; false; false]
  = Ok ({| _vehicles := [Sample.car3]; _promises := [2%nat] |},
        [true; true; false]) ∧
  ∃ p, head [1%nat; 2%nat] = Some p ∧
       future_ready p [true; false; false] = false ∧
       length [true; true; false] = length [true; false; false] ∧
       ∀ p', future_ready p' [true; true; false] = true
             ↔ p' = p ∨ future_ready p' [true; false; false] = true.
Proof.
  split; [reflexivity|].
  apply (permitEntry_wakes_one
           {| _vehicles := [Sample.car2; Sample.car3];
              _promises := [1%nat; 2%nat] |}
           {| _vehicles := [Sample.car3]; _promises := [2%nat] |}).
  reflexivity.
Defined.

(** ** The threads of an intersection *)

(** Without a departure in between, the admission loop grants at most
    once: the world a turn of [processVehicleQueue] leaves is not changed by
    the next turn. *)
Theorem processVehicleQueue_iter_twice (w w' : World) :
  processVehicleQueue_iter w = Ok w' →
  processVehicleQueue_iter w' = Ok w'.
Proof.
  intros Hturn.
  destruct (proj1 (processVehicleQueue_iter_Ok _ _) Hturn)
    as [[_ ->]|(_ & _ & q' & σ' & _ & ->)]; [done|].
  apply processVehicleQueue_iter_Ok. left. split; [by right|done].
Qed.

Lemma processVehicleQueue_iter_twice_witness :
  processVehicleQueue_iter Sample.world1
  = Ok (with_waiting WaitingVehicles_empty [true]
          (setIsBlocked true Sample.world1)) ∧
  processVehicleQueue_iter
    (with_waiting WaitingVehicles_empty [true] (setIsBlocked true Sample.world1))
  = Ok (with_waiting WaitingVehicles_empty [true]
          (setIsBlocked true Sample.world1)).
Proof.
  split; [reflexivity|].
  apply (processVehicleQueue_iter_twice Sample.world1). reflexivity.
Defined.

Lemma fulfilled_app σ1 σ2 : fulfilled (σ1 ++ σ2) = (fulfilled σ1 + fulfilled σ2)%nat.
Proof. induction σ1 as [|[] σ1 IH]; simpl; [done|by rewrite IH|done]. Qed.

Lemma fulfilled_set σ : ∀ p,
  σ !! p = Some false → fulfilled (<[p:=true]> σ) = S (fulfilled σ).
Proof.
  induction σ as [|b σ IH]; intros [|p] Hp; simplify_eq/=; [done|].
  rewrite IH by done. by destruct b.
Qed.

(** What one step does to the gate and to the number of fulfilled
    promises, by the kind of step. *)
Lemma sys_step_counts w lbl w' :
  sys_step w lbl w' →
  match lbl with
  | l_departure _ =>
      blocked w' = false ∧ fulfilled (promises w') = fulfilled (promises w)
  | l_admission =>
      (w' = w) ∨
      (blocked w = false ∧ blocked w' = true ∧
       fulfilled (promises w') = S (fulfilled (promises w)))
  | _ => blocked w' = blocked w ∧
         fulfilled (promises w') = fulfilled (promises w)
  end.
Proof.
  intros Hstep. destruct Hstep as [tid v at_ w e at' w' Hstep
    |w w' Hstep|v w|i l l' w tl' out' Hstep].
  - split; [by eapply vehicle_step_blocked|].
    apply vehicle_step_waiting in Hstep as [(_ & _ & ->)|(_ & _ & ->)]; [|done].
    simpl. rewrite fulfilled_app. simpl. lia.
  - apply processVehicleQueue_iter_Ok in Hstep
      as [[_ ->]|(_ & Hb & q' & σ' & Hpermit & ->)]; [by left|right].
    apply permitEntry_Ok in Hpermit as (v0 & p0 & _ & _ & Hlook & ->).
    split; [done|]. split; [done|]. simpl. by apply fulfilled_set.
  - done.
  - done.
Qed.

Lemma departures_app lbls1 lbls2 :
  departures (lbls1 ++ lbls2) = (departures lbls1 + departures lbls2)%nat.
Proof.
  induction lbls1 as [|[] lbls1 IH]; simpl; try done. by rewrite IH.
Qed.

(** At most one vehicle is inside: in every run from a new intersection,
    the promises fulfilled are at most one more than the departures, and
    no more than the departures while the intersection is not blocked. *)
Theorem grants_bounded_by_departures (id : nat) (streets : list Street)
    (lbls : list label) (w : World) :
  sys_run (World_init id streets) lbls w →
  (fulfilled (promises w) + (if blocked w then 0 else 1)
     ≤ departures lbls + 1)%nat.
Proof.
  remember (World_init id streets) as w0 eqn:Hw0.
  induction 1 as [w|w lbls w' lbl w'' Hrun IH Hstep].
  - subst w. unfold blocked, World_init. simpl.
    by destruct (addStreets_frame streets (Intersection_new id)) as (_ & -> & _).
  - specialize (IH Hw0).
    rewrite departures_app.
    apply sys_step_counts in Hstep.
    destruct lbl as [tid v e| |v|].
    + destruct Hstep as [-> ->]. simpl. lia.
    + destruct Hstep as [->|(Hb & -> & ->)]; [simpl; lia|].
      rewrite Hb in IH. simpl. lia.
    + destruct Hstep as [-> ->]. simpl. destruct (blocked w'); lia.
    + destruct Hstep as [-> ->]. simpl. lia.
Qed.

Lemma Sample_sys_run :
  sys_run Sample.world0
    [l_vehicle 1 Sample.car1 (EvPushBack 0%nat); l_admission]
    (with_waiting WaitingVehicles_empty [true] (setIsBlocked true Sample.world1)).
Proof.
  apply (sys_run_snoc Sample.world0
           [l_vehicle 1 Sample.car1 (EvPushBack 0%nat)] Sample.world1).
  - apply (sys_run_snoc Sample.world0 [] Sample.world0); [constructor|].
    by apply (step_vehicle 1 Sample.car1 L123_pushBack Sample.world0
                (EvPushBack 0%nat) (L126_wait 0%nat)).
  - by apply step_admission.
Qed.

Lemma grants_bounded_by_departures_witness :
  sys_run (World_init 7 [])
    [l_vehicle 1 Sample.car1 (EvPushBack 0%nat); l_admission] Scenario.world2 ∧
  (fulfilled (promises Scenario.world2)
   + (if blocked Scenario.world2 then 0 else 1)
   ≤ departures [l_vehicle 1 Sample.car1 (EvPushBack 0%nat); l_admission] + 1)%nat.
Proof.
  split; [exact Sample_sys_run|].
  exact (grants_bounded_by_departures 7 [] _ _ Sample_sys_run).
Defined.

(** A step other than a departure, taken while the intersection is
    blocked, fulfils no promise and lets no queued request go. *)
Lemma sys_step_blocked w lbl w' :
  sys_step w lbl w' → blocked w = true → departures [lbl] = 0%nat →
  blocked w' = true ∧
  (∃ n, promises w' = promises w ++ replicate n false) ∧
  (∃ vs ps, _vehicles (waiting w') = _vehicles (waiting w) ++ vs ∧
            _promises (waiting w') = _promises (waiting w) ++ ps).
Proof.
  intros Hstep Hb Hdep. destruct Hstep as [tid v at_ w e at' w' Hstep
    |w w' Hstep|v w|i l l' w tl' out' Hstep].
  - split; [by erewrite vehicle_step_blocked|].
    apply vehicle_step_waiting in Hstep as [(_ & -> & ->)|(_ & -> & ->)].
    + split; [by exists 1%nat|]. by exists [v], [length (promises w)].
    + split; [exists 0%nat|exists [], []]; by rewrite !app_nil_r.
  - apply processVehicleQueue_iter_Ok in Hstep
      as [[_ ->]|(_ & Hb' & _)]; [|congruence].
    split; [done|]. split; [exists 0%nat|exists [], []]; by rewrite !app_nil_r.
  - done.
  - split; [done|]. split; [exists 0%nat|exists [], []]; by rewrite !app_nil_r.
Qed.

(** The queue stalls when a vehicle does not report its departure: from a
    blocked intersection, in every run without a [vehicleHasLeft] call the
    intersection stays blocked, no further promise is fulfilled (promises
    are only created, not ready), and every request queued at the start is
    still queued, in its place, at the end. *)
Theorem no_departure_no_grant (w : World) (lbls : list label) (w' : World) :
  sys_run w lbls w' →
  blocked w = true → departures lbls = 0%nat →
  blocked w' = true ∧
  (∃ n, promises w' = promises w ++ replicate n false) ∧
  (∃ vs ps, _vehicles (waiting w') = _vehicles (waiting w) ++ vs ∧
            _promises (waiting w') = _promises (waiting w) ++ ps).
Proof.
  induction 1 as [w|w lbls w' lbl w'' Hrun IH Hstep]; intros Hb Hdep.
  - split; [done|]. split; [exists 0%nat|exists [], []]; by rewrite !app_nil_r.
  - rewrite departures_app in Hdep.
    destruct IH as (Hb' & [n Hσ] & vs & ps & Hvs & Hps); [done|lia|].
    destruct (sys_step_blocked _ _ _ Hstep Hb') as (Hb'' & [n' Hσ'] & vs' & ps' & Hvs' & Hps');
      [lia|].
    split; [done|]. split.
    + exists (n + n')%nat. by rewrite Hσ', Hσ, <- app_assoc, replicate_add.
    + exists (vs ++ vs'), (ps ++ ps'). by rewrite Hvs', Hps', Hvs, Hps, !app_assoc.
Qed.

Lemma Scenario_blocked_run :
  sys_run Scenario.world2
    [l_vehicle 2 Sample.car2 (EvPushBack 1%nat); l_admission] Scenario.world3.
Proof.
  apply (sys_run_snoc Scenario.world2
           [l_vehicle 2 Sample.car2 (EvPushBack 1%nat)] Scenario.world3).
  - apply (sys_run_snoc Scenario.world2 [] Scenario.world2); [constructor|].
    by apply (step_vehicle 2 Sample.car2 L123_pushBack Scenario.world2
                (EvPushBack 1%nat) (L126_wait 1%nat)).
  - by apply step_admission.
Qed.

Lemma no_departure_no_grant_witness :
  sys_run Scenario.world2
    [l_vehicle 2 Sample.car2 (EvPushBack 1%nat); l_admission] Scenario.world3 ∧
  blocked Scenario.world2 = true ∧
  blocked Scenario.world3 = true ∧
  (∃ n, promises Scenario.world3
        = promises Scenario.world2 ++ replicate n false) ∧
  (∃ vs ps,
     _vehicles (waiting Scenario.world3)
       = _vehicles (waiting Scenario.world2) ++ vs ∧
     _promises (waiting Scenario.world3)
       = _promises (waiting Scenario.world2) ++ ps).
Proof.
  split; [exact Scenario_blocked_run|]. split; [reflexivity|].
  apply (no_departure_no_grant Scenario.world2
           [l_vehicle 2 Sample.car2 (EvPushBack 1%nat); l_admission]
           Scenario.world3 Scenario_blocked_run); reflexivity.
Defined.

(** No queued request has been granted: in every world the threads can
    reach, there is one queued promise per queued vehicle, the queued
    promises are pairwise distinct, and each of them has a shared state
    that is not ready. *)
Theorem queued_promises_unfulfilled (w : World) :
  reachable w →
  length (_vehicles (waiting w)) = length (_promises (waiting w)) ∧
  NoDup (_promises (waiting w)) ∧
  (∀ p, p ∈ _promises (waiting w) →
        promises w !! p = Some false ∧ future_ready p (promises w) = false).
Proof.
  intros (Hlen & Hnd & Hfalse)%reachable_queue_inv.
  split; [done|]. split; [done|]. intros p Hp.
  pose proof (proj1 (Forall_forall _ _) Hfalse p Hp) as Hlook. simpl in Hlook.
  split; [done|]. unfold future_ready. by rewrite Hlook.
Qed.

Lemma queued_promises_unfulfilled_witness :
  reachable Sample.world1 ∧
  length (_vehicles (waiting Sample.world1))
    = length (_promises (waiting Sample.world1)) ∧
  NoDup (_promises (waiting Sample.world1)) ∧
  (∀ p, p ∈ _promises (waiting Sample.world1) →
        promises Sample.world1 !! p = Some false ∧
        future_ready p (promises Sample.world1) = false).
Proof.
  split; [exact Sample_world1_reachable|].
  exact (queued_promises_unfulfilled Sample.world1 Sample_world1_reachable).
Defined.

(** A departure lets the next request in: in a reachable world with a
    request waiting, [vehicleHasLeft] followed by a turn of the admission
    loop grants the request at the front, takes it off the queue and blocks
    the intersection again. *)
Theorem departure_then_admission (w : World) (vehicle : Vehicle) :
  reachable w → 0 < getSize (waiting w) →
  ∃ v p vs ps,
    _vehicles (waiting w) = v :: vs ∧ _promises (waiting w) = p :: ps ∧
    promises w !! p = Some false ∧
    processVehicleQueue_iter (vehicleHasLeft vehicle w)
    = Ok (with_waiting {| _vehicles := vs; _promises := ps |}
            (<[p:=true]> (promises w))
            (setIsBlocked true (vehicleHasLeft vehicle w))).
Proof.
  intros Hinv%reachable_queue_inv Hsize.
  pose proof (getSize_pos_nonempty _ Hsize) as Hne.
  destruct (queue_inv_permit _ _ Hinv Hne) as (q' & σ' & Hpermit & _).
  pose proof Hpermit as (v & p & Hv & Hp & Hlook & ->)%permitEntry_Ok.
  exists v, p, (_vehicles q'), (_promises q').
  split; [done|]. split; [done|]. split; [done|].
  apply processVehicleQueue_iter_Ok. right.
  split; [done|]. split; [done|].
  exists q', (<[p:=true]> (promises w)). split; [done|]. by destruct q'.
Qed.

Lemma departure_then_admission_witness :
  reachable Sample.world1 ∧ 0 < getSize (waiting Sample.world1) ∧
  ∃ v p vs ps,
    _vehicles (waiting Sample.world1) = v :: vs ∧
    _promises (waiting Sample.world1) = p :: ps ∧
    promises Sample.world1 !! p = Some false ∧
    processVehicleQueue_iter (vehicleHasLeft Sample.car3 Sample.world1)
    = Ok (with_waiting {| _vehicles := vs; _promises := ps |}
            (<[p:=true]> (promises Sample.world1))
            (setIsBlocked true (vehicleHasLeft Sample.car3 Sample.world1))).
Proof.
  assert (0 < getSize (waiting Sample.world1)) as Hsize by reflexivity.
  split; [exact Sample_world1_reachable|]. split; [exact Hsize|].
  exact (departure_then_admission Sample.world1 Sample.car3
           Sample_world1_reachable Hsize).
Defined.

Lemma addStreets_streets streets : ∀ x,
  _streets (foldl (fun x street => addStreet street x) x streets)
    = _streets x ++ streets ∧
  _id (foldl (fun x street => addStreet street x) x streets) = _id x.
Proof.
  induction streets as [|s streets IH]; intros x; simpl.
  - by rewrite app_nil_r.
  - destruct (IH (addStreet s x)) as [-> ->]. simpl. by rewrite <- app_assoc.
Qed.

Lemma sys_step_static w lbl w' :
  sys_step w lbl w' →
  _id (intersection w') = _id (intersection w) ∧
  _streets (intersection w') = _streets (intersection w).
Proof.
  intros Hstep. destruct Hstep as [tid v at_ w e at' w' Hstep
    |w w' Hstep|v w|i l l' w tl' out' Hstep]; try done.
  - destruct at_; simpl in Hstep; step_cases Hstep; done.
  - apply processVehicleQueue_iter_Ok in Hstep
      as [[_ ->]|(_ & _ & q' & σ' & _ & ->)]; done.
Qed.

(** The streets of an intersection are fixed once its threads run: after
    the intersection was built with [addStreet] calls, no step of any
    thread changes its id or its street list, so [queryStreets] keeps
    answering with the added streets whose id differs from the incoming
    street's, in the order they were added. *)
Theorem streets_are_static (id : nat) (streets : list Street)
    (lbls : list label) (w : World) (incoming : Street) :
  sys_run (World_init id streets) lbls w →
  _id (intersection w) = id ∧
  _streets (intersection w) = streets ∧
  queryStreets incoming (intersection w)
  = (filter (fun it => street_getID incoming ≠ street_getID it) streets,
     intersection w).
Proof.
  intros Hrun.
  assert (_id (intersection w) = id ∧ _streets (intersection w) = streets)
    as [Hid Hstreets].
  { remember (World_init id streets) as w0 eqn:Hw0.
    induction Hrun as [w|w lbls w' lbl w'' Hrun IH Hstep].
    - subst w. unfold World_init. simpl.
      by destruct (addStreets_streets streets (Intersection_new id)) as [-> ->].
    - destruct (sys_step_static _ _ _ Hstep) as [-> ->]. by apply IH. }
  split; [done|]. split; [done|]. by rewrite queryStreets_by_id, Hstreets.
Qed.

Lemma Scenario_departure_run :
  sys_run Scenario.street_world [l_departure Sample.car1]
    (vehicleHasLeft Sample.car1 Scenario.street_world).
Proof.
  apply (sys_run_snoc Scenario.street_world [] Scenario.street_world
           (l_departure Sample.car1)); constructor.
Qed.

Lemma streets_are_static_witness :
  sys_run (World_init 7 [Sample.streetA; Sample.streetB; Sample.streetC])
    [l_departure Sample.car1]
    (vehicleHasLeft Sample.car1 Scenario.street_world) ∧
  (queryStreets Sample.streetA
     (intersection (vehicleHasLeft Sample.car1 Scenario.street_world))).1
  = [Sample.streetB; Sample.streetC].
Proof.
  split; [exact Scenario_departure_run|].
  exact (f_equal fst
           (proj2 (proj2 (streets_are_static 7
              [Sample.streetA; Sample.streetB; Sample.streetC]
              [l_departure Sample.car1]
              (vehicleHasLeft Sample.car1 Scenario.street_world)
              Sample.streetA Scenario_departure_run)))).
Defined.

(** [addVehicleToQueue] does not return on its own.  A thread that is the
    only one to run takes at most four statements and is never at the
    return: when the mutex is held it cannot take the lock of line 116;
    when the mutex is free it runs up to the wait of line 126 with the
    promise it has just created and pushed, whose shared state is not
    ready, and there it cannot go on. *)
Theorem addVehicleToQueue_alone_blocks (thread_id : nat) (vehicle : Vehicle)
    (w : World) :
  (∀ n tr w' at',
     schedule thread_id vehicle (replicate n t_own) w L116_lock
       = Some (tr, w', at') →
     at' ≠ Returned ∧ (n ≤ 4)%nat) ∧
  (_mtx w = true →
   addVehicleToQueue_step thread_id vehicle L116_lock w = None) ∧
  (_mtx w = false →
   ∃ tr w',
     schedule thread_id vehicle (replicate 4 t_own) w L116_lock
       = Some (tr, w', L126_wait (length (promises w))) ∧
     promises w' !! length (promises w) = Some false ∧
     addVehicleToQueue_step thread_id vehicle
       (L126_wait (length (promises w))) w' = None).
Proof.
  assert ((promises w ++ [false]) !! length (promises w) = Some false) as Hnew.
  { rewrite lookup_app_r by done. by rewrite Nat.sub_diag. }
  split; [|split].
  - intros n tr w' at' Hrun.
    do 5 (destruct n as [|n];
          [simpl in Hrun; destruct (_mtx w); simpl in Hrun;
           try discriminate; injection Hrun as <- <- <-;
           (split; [discriminate|lia])|]).
    exfalso. simpl in Hrun. destruct (_mtx w); [done|]. simpl in Hrun.
    unfold future_ready in Hrun. simpl in Hrun. rewrite Hnew in Hrun. done.
  - intros Hm. simpl. by rewrite Hm.
  - intros Hm. simpl. rewrite Hm. simpl. eexists _, _. split; [done|].
    simpl. split; [done|]. unfold future_ready. simpl. by rewrite Hnew.
Qed.

Lemma addVehicleToQueue_alone_blocks_witness :
  ∃ tr w',
    schedule 1 Sample.car1 (replicate 4 t_own) Sample.world0 L116_lock
      = Some (tr, w', L126_wait (length (promises Sample.world0))) ∧
    promises w' !! length (promises Sample.world0) = Some false ∧
    addVehicleToQueue_step 1 Sample.car1
      (L126_wait (length (promises Sample.world0))) w' = None.
Proof.
  apply (proj2 (proj2 (addVehicleToQueue_alone_blocks 1 Sample.car1
                         Sample.world0))).
  reflexivity.
Defined.

Section schedules.
Context (thread_id : nat) (vehicle : Vehicle).

Lemma schedule_app turns1 turns2 : ∀ w at_,
  schedule thread_id vehicle (turns1 ++ turns2) w at_ =
  match schedule thread_id vehicle turns1 w at_ with
  | None => None
  | Some (tr1, w1, at1) =>
      match schedule thread_id vehicle turns2 w1 at1 with
      | None => None
      | Some (tr2, w2, at2) => Some (tr1 ++ tr2, w2, at2)
      end
  end.
Proof.
  induction turns1 as [|[| |other|i l] turns1 IH]; intros w at_;
    cbn [schedule app].
  - by destruct (schedule thread_id vehicle turns2 w at_) as [[[??]?]|].
  - destruct (addVehicleToQueue_step thread_id vehicle at_ w)
      as [[[e at1] w1]|]; [|done].
    rewrite IH.
    destruct (schedule thread_id vehicle turns1 w1 at1) as [[[tr1 w2] at2]|];
      [|done].
    by destruct (schedule thread_id vehicle turns2 w2 at2) as [[[??]?]|].
  - destruct (processVehicleQueue_iter w); [apply IH|done].
  - apply IH.
  - destruct (cycleThroughPhases_iter i (l, light w, cout w)) as [[??]?].
    apply IH.
Qed.

(** From the entry to the wait, when the mutex is free. *)
Lemma schedule_to_wait w :
  _mtx w = false →
  ∃ tr w',
    schedule thread_id vehicle (replicate 4 t_own) w L116_lock
      = Some (tr, w', L126_wait (length (promises w))) ∧
    waiting w' = pushBack vehicle (length (promises w)) (waiting w) ∧
    promises w' = promises w ++ [false] ∧
    blocked w' = blocked w ∧ light w' = light w ∧ _mtx w' = false.
Proof. intros Hm. simpl. rewrite Hm. simpl. by eexists _, _. Qed.

(** The turn of the admission loop that grants a lone request. *)
Lemma admission_of_lone_request w p :
  waiting w = pushBack vehicle p WaitingVehicles_empty →
  promises w !! p = Some false → blocked w = false →
  processVehicleQueue_iter w
  = Ok (with_waiting WaitingVehicles_empty (<[p:=true]> (promises w))
          (setIsBlocked true w)).
Proof.
  intros Hq Hp Hb. apply processVehicleQueue_iter_Ok. right.
  split; [by rewrite Hq|]. split; [done|].
  eexists _, _. split; [|done].
  apply permitEntry_Ok. exists vehicle, p. by rewrite Hq.
Qed.

(** From the wait to the return, past a green light. *)
Lemma schedule_from_wait_green w p :
  future_ready p (promises w) = true → _mtx w = false →
  getCurrentPhase (light w) = green →
  ∃ tr w',
    schedule thread_id vehicle (replicate 5 t_own) w (L126_wait p)
      = Some (tr, w', Returned) ∧
    intersection w' = intersection w ∧ promises w' = promises w ∧
    _mtx w' = false.
Proof.
  intros Hp Hm Hgreen. simpl. rewrite Hp. simpl. rewrite Hm. simpl.
  unfold light, getCurrentPhase in *. simpl. rewrite Hgreen.
  by eexists _, _.
Qed.

(** From the wait to the return when the light is red and then toggles. *)
Lemma schedule_from_wait_red w p i l :
  future_ready p (promises w) = true → _mtx w = false →
  getCurrentPhase (light w) = red →
  phase_duration l ≤ time_elapsed (phase_start l) (now_phase_end i) →
  ∃ tr w',
    schedule thread_id vehicle
      (replicate 4 t_own ++ [t_light i l] ++ replicate 2 t_own) w (L126_wait p)
      = Some (tr, w', Returned) ∧
    light w' = {| _currentPhase := green; _queue := _queue (light w) |} ∧
    waiting w' = waiting w ∧ blocked w' = blocked w ∧
    promises w' = promises w ∧ _mtx w' = false.
Proof.
  intros Hp Hm Hred Hle%Z.leb_le. simpl. rewrite Hp. simpl. rewrite Hm. simpl.
  unfold light, getCurrentPhase in *. simpl. rewrite Hred. simpl.
  rewrite Hle. simpl.
  unfold waitForGreen_turn, receive, light, send. simpl.
  rewrite back_snoc, pop_back_snoc. simpl. eexists _, _. split; [done|].
  unfold waiting, blocked. simpl. by destruct (_queue _).
Qed.
End schedules.

(** A lone request gets through a green light: on an intersection that is
    not blocked, with nobody queued, the mutex free and the light green,
    a call of [addVehicleToQueue] returns after one turn of the admission
    loop.  The intersection is then blocked, the queue empty again, the
    caller's promise fulfilled and the light untouched. *)
Theorem addVehicleToQueue_returns_on_green (thread_id : nat)
    (vehicle : Vehicle) (w : World) :
  _mtx w = false → blocked w = false →
  waiting w = WaitingVehicles_empty →
  getCurrentPhase (light w) = green →
  ∃ tr w',
    schedule thread_id vehicle
      (replicate 4 t_own ++ [t_admission] ++ replicate 5 t_own) w L116_lock
      = Some (tr, w', Returned) ∧
    blocked w' = true ∧ waiting w' = WaitingVehicles_empty ∧
    promises w' = promises w ++ [true] ∧
    light w' = light w ∧ _mtx w' = false.
Proof.
  intros Hm Hb Hq Hgreen.
  destruct (schedule_to_wait thread_id vehicle w Hm)
    as (tr1 & w1 & Hrun1 & Hq1 & Hσ1 & Hb1 & Hl1 & Hm1).
  rewrite Hq in Hq1.
  assert (promises w1 !! length (promises w) = Some false) as Hp1.
  { rewrite Hσ1, lookup_app_r by done. by rewrite Nat.sub_diag. }
  pose proof (admission_of_lone_request vehicle w1 _ Hq1 Hp1
                (eq_trans Hb1 Hb)) as Hturn.
  set (w2 := with_waiting WaitingVehicles_empty
               (<[length (promises w):=true]> (promises w1))
               (setIsBlocked true w1)) in *.
  assert (promises w2 = promises w ++ [true]) as Hσ2.
  { unfold w2. simpl. rewrite Hσ1, insert_app_r_alt by done.
    by rewrite Nat.sub_diag. }
  destruct (schedule_from_wait_green thread_id vehicle w2 (length (promises w)))
    as (tr3 & w3 & Hrun3 & Hx3 & Hσ3 & Hm3).
  { unfold future_ready. rewrite Hσ2, lookup_app_r by done.
    by rewrite Nat.sub_diag. }
  { done. }
  { unfold w2, light. simpl. by rewrite <- Hgreen, <- Hl1. }
  exists (tr1 ++ tr3), w3. split.
  - rewrite schedule_app, Hrun1. cbn [app schedule]. rewrite Hturn.
    fold (replicate 5 t_own). rewrite Hrun3. done.
  - unfold blocked, waiting, light. rewrite Hx3, Hσ3, Hσ2.
    split; [done|]. split; [done|]. split; [done|]. split; [|done].
    unfold w2. simpl. apply Hl1.
Qed.

(** A lone request gets through a red light once the light toggles: the
    caller reads red, and after the next toggle to green it receives the
    green value just sent and returns; whatever was in the message queue
    before stays there. *)
Theorem addVehicleToQueue_returns_after_toggle (thread_id : nat)
    (vehicle : Vehicle) (w : World) (i : cycle_input) (l : cycle_locals) :
  _mtx w = false → blocked w = false →
  waiting w = WaitingVehicles_empty →
  getCurrentPhase (light w) = red →
  phase_duration l ≤ time_elapsed (phase_start l) (now_phase_end i) →
  ∃ tr w',
    schedule thread_id vehicle
      (replicate 4 t_own ++ [t_admission] ++ replicate 4 t_own
         ++ [t_light i l] ++ replicate 2 t_own) w L116_lock
      = Some (tr, w', Returned) ∧
    blocked w' = true ∧ waiting w' = WaitingVehicles_empty ∧
    promises w' = promises w ++ [true] ∧
    light w' = {| _currentPhase := green; _queue := _queue (light w) |} ∧
    _mtx w' = false.
Proof.
  intros Hm Hb Hq Hred Hle.
  destruct (schedule_to_wait thread_id vehicle w Hm)
    as (tr1 & w1 & Hrun1 & Hq1 & Hσ1 & Hb1 & Hl1 & Hm1).
  rewrite Hq in Hq1.
  assert (promises w1 !! length (promises w) = Some false) as Hp1.
  { rewrite Hσ1, lookup_app_r by done. by rewrite Nat.sub_diag. }
  pose proof (admission_of_lone_request vehicle w1 _ Hq1 Hp1
                (eq_trans Hb1 Hb)) as Hturn.
  set (w2 := with_waiting WaitingVehicles_empty
               (<[length (promises w):=true]> (promises w1))
               (setIsBlocked true w1)) in *.
  assert (promises w2 = promises w ++ [true]) as Hσ2.
  { unfold w2. simpl. rewrite Hσ1, insert_app_r_alt by done.
    by rewrite Nat.sub_diag. }
  assert (light w2 = light w) as Hl2 by (unfold w2, light; simpl; apply Hl1).
  destruct (schedule_from_wait_red thread_id vehicle w2
              (length (promises w)) i l)
    as (tr3 & w3 & Hrun3 & Hl3 & Hq3 & Hb3 & Hσ3 & Hm3).
  { unfold future_ready. rewrite Hσ2, lookup_app_r by done.
    by rewrite Nat.sub_diag. }
  { done. }
  { by rewrite Hl2. }
  { done. }
  exists (tr1 ++ tr3), w3. split.
  - rewrite schedule_app, Hrun1. cbn [app schedule]. rewrite Hturn.
    change (schedule thread_id vehicle ?t w2 ?a)
      with (schedule thread_id vehicle
              (replicate 4 t_own ++ [t_light i l] ++ replicate 2 t_own) w2 a).
    rewrite Hrun3. done.
  - rewrite Hb3, Hq3, Hσ3, Hσ2, Hl3, Hl2. done.
Qed.

Lemma addVehicleToQueue_returns_on_green_witness :
  _mtx Scenario.green_world = false ∧ blocked Scenario.green_world = false ∧
  waiting Scenario.green_world = WaitingVehicles_empty ∧
  getCurrentPhase (light Scenario.green_world) = green ∧
  ∃ tr w',
    schedule 1 Sample.car1
      (replicate 4 t_own ++ [t_admission] ++ replicate 5 t_own)
      Scenario.green_world L116_lock
      = Some (tr, w', Returned) ∧
    blocked w' = true ∧ waiting w' = WaitingVehicles_empty ∧
    promises w' = promises Scenario.green_world ++ [true] ∧
    light w' = light Scenario.green_world ∧ _mtx w' = false.
Proof.
  do 4 (split; [reflexivity|]).
  apply (addVehicleToQueue_returns_on_green 1 Sample.car1 Scenario.green_world);
    reflexivity.
Defined.

Lemma addVehicleToQueue_returns_after_toggle_witness :
  _mtx Sample.world0 = false ∧ blocked Sample.world0 = false ∧
  waiting Sample.world0 = WaitingVehicles_empty ∧
  getCurrentPhase (light Sample.world0) = red ∧
  phase_duration Sample.locals0
    ≤ time_elapsed (phase_start Sample.locals0)
        (now_phase_end Scenario.toggle_input) ∧
  ∃ tr w',
    schedule 1 Sample.car1
      (replicate 4 t_own ++ [t_admission] ++ replicate 4 t_own
         ++ [t_light Scenario.toggle_input Sample.locals0]
         ++ replicate 2 t_own) Sample.world0 L116_lock
      = Some (tr, w', Returned) ∧
    blocked w' = true ∧ waiting w' = WaitingVehicles_empty ∧
    promises w' = promises Sample.world0 ++ [true] ∧
    light w'
      = {| _currentPhase := green; _queue := _queue (light Sample.world0) |} ∧
    _mtx w' = false.
Proof.
  assert (phase_duration Sample.locals0
            ≤ time_elapsed (phase_start Sample.locals0)
                (now_phase_end Scenario.toggle_input)) as Hle.
  { vm_compute. discriminate. }
  do 4 (split; [reflexivity|]). split; [exact Hle|].
  apply (addVehicleToQueue_returns_after_toggle 1 Sample.car1 Sample.world0
           Scenario.toggle_input Sample.locals0); first [reflexivity|exact Hle].
Defined.

(** ** The message queue and the light *)

(** Messages sent in a row and received in a row come back latest first,
    and what was in the queue before is left as it was. *)
Theorem sends_then_receives {T} (l : list T) (q : MessageQueue T) :
  receive_n (length l) (sends l q) = Some (reverse l, q).
Proof.
  destruct q as [old].
  assert (sends l {| _messages := old |} = {| _messages := old ++ l |}) as ->.
  { pose proof (sends_messages l {| _messages := old |}) as H.
    destruct (sends l _). simpl in H. by rewrite H. }
  rewrite receive_n_lifo, length_app.
  rewrite decide_True by lia. do 2 f_equal.
  - rewrite reverse_app, take_app_le by (rewrite length_reverse; lia).
    rewrite take_ge by (rewrite length_reverse; lia). done.
  - f_equal. rewrite take_app_le by lia. apply take_ge. lia.
Qed.

Lemma waitForGreen_snoc turns ph (msgs : list TrafficLightPhase) x :
  waitForGreen (S turns)
    {| _currentPhase := ph; _queue := {| _messages := msgs ++ [x] |} |}
  = match x with
    | green => wait_returned
                 {| _currentPhase := ph; _queue := {| _messages := msgs |} |}
    | red => waitForGreen turns
               {| _currentPhase := ph; _queue := {| _messages := msgs |} |}
    end.
Proof.
  cbn [waitForGreen]. unfold waitForGreen_turn. cbn [_queue _currentPhase].
  rewrite receive_snoc. by destruct x.
Qed.

(** What a call of [waitForGreen] does with the messages it finds when no
    more are sent: it takes them off the back of the queue up to and
    including the most recent green one and returns, leaving the older
    messages; when no green message is there, it empties the queue and
    blocks in [receive].  It never changes the phase itself. *)
Theorem waitForGreen_takes_to_last_green (ph : TrafficLightPhase)
    (msgs : list TrafficLightPhase) (turns : nat) :
  (length msgs < turns)%nat →
  (green ∈ msgs →
   ∃ old k, msgs = old ++ green :: replicate k red ∧
     waitForGreen turns
       {| _currentPhase := ph; _queue := {| _messages := msgs |} |}
     = wait_returned
         {| _currentPhase := ph; _queue := {| _messages := old |} |}) ∧
  (green ∉ msgs →
   waitForGreen turns
     {| _currentPhase := ph; _queue := {| _messages := msgs |} |}
   = wait_blocked {| _currentPhase := ph; _queue := {| _messages := [] |} |}).
Proof.
  revert turns. induction msgs as [|x msgs IH] using rev_ind;
    intros [|turns] Hlen; try (simpl in Hlen; lia).
  - split; [by intros ?%elem_of_nil|done].
  - rewrite length_app in Hlen. simpl in Hlen.
    destruct (IH turns) as [IHg IHn]; [lia|].
    rewrite waitForGreen_snoc. destruct x.
    + split.
      * intros [Hin|Hin%list_elem_of_singleton]%elem_of_app; [|done].
        destruct (IHg Hin) as (old & k & -> & ->).
        exists old, (S k). split; [|done].
        rewrite <- app_assoc. simpl. by rewrite (replicate_cons_app k red).
      * intros Hnotin. apply IHn. intros Hin. apply Hnotin, elem_of_app. by left.
    + split.
      * intros _. exists msgs, 0%nat. done.
      * intros Hnotin. exfalso. apply Hnotin, elem_of_app. right. by left.
Qed.

Lemma waitForGreen_takes_to_last_green_witness :
  (length [green; red; green; red; red] < 6)%nat ∧
  ∃ old k, [green; red; green; red; red] = old ++ green :: replicate k red ∧
    waitForGreen 6
      {| _currentPhase := red;
         _queue := {| _messages := [green; red; green; red; red] |} |}
    = wait_returned
        {| _currentPhase := red; _queue := {| _messages := old |} |}.
Proof.
  assert (length [green; red; green; red; red] < 6)%nat as Hlen
    by (vm_compute; lia).
  split; [exact Hlen|].
  apply (proj1 (waitForGreen_takes_to_last_green red
                  [green; red; green; red; red] 6 Hlen)).
  apply list_elem_of_here.
Defined.

(** The length of a phase: with the duration in force drawn from
    [4000, 6000], a turn of the loop toggles exactly when the clock has
    advanced by at least that many milliseconds since the phase started.
    So the phase is never toggled within the first 4000 ms, and is toggled
    by the first turn that comes 6000 ms or more after its start. *)
Theorem phase_lasts_4_to_6_seconds (i : cycle_input) (l : cycle_locals)
    (tl : TrafficLight) (out : list cout_line) :
  uni (phase_duration l) →
  let ticks := now_phase_end i - phase_start l in
  (getCurrentPhase (cycleThroughPhases_iter i (l, tl, out)).1.2
     = opposite (getCurrentPhase tl)
   ↔ phase_duration l * ticks_per_ms ≤ ticks) ∧
  (ticks < 4000 * ticks_per_ms →
   cycleThroughPhases_iter i (l, tl, out) = (l, tl, out)) ∧
  (6000 * ticks_per_ms ≤ ticks →
   getCurrentPhase (cycleThroughPhases_iter i (l, tl, out)).1.2
     = opposite (getCurrentPhase tl)).
Proof.
  intros [Hmin Hmax]. cbv zeta. unfold min, max in *.
  pose proof (quot_ticks_le (phase_duration l)
                (now_phase_end i - phase_start l) ltac:(lia)) as [Hq1 Hq2].
  fold (time_elapsed (phase_start l) (now_phase_end i)) in Hq1, Hq2.
  assert (4000 * ticks_per_ms ≤ phase_duration l * ticks_per_ms
          ≤ 6000 * ticks_per_ms) as Hd by (unfold ticks_per_ms; lia).
  destruct (cycleThroughPhases_iter_cases i l tl out) as [[Hlt ->]|[Hle ->]];
    simpl; unfold getCurrentPhase.
  - split; [|split; [done|intros ?; lia]].
    split; [by destruct (_currentPhase tl)|intros ?; lia].
  - specialize (Hq1 Hle). split; [|split; [intros ?; lia|done]].
    split; [done|done].
Qed.

Lemma phase_lasts_4_to_6_seconds_witness :
  uni (phase_duration Sample.locals0) ∧
  (now_phase_end Scenario.toggle_input - phase_start Sample.locals0
     < 4000 * ticks_per_ms →
   cycleThroughPhases_iter Scenario.toggle_input
     (Sample.locals0, TrafficLight_new, [])
   = (Sample.locals0, TrafficLight_new, [])) ∧
  (6000 * ticks_per_ms
     ≤ now_phase_end Scenario.toggle_input - phase_start Sample.locals0 →
   getCurrentPhase
     (cycleThroughPhases_iter Scenario.toggle_input
        (Sample.locals0, TrafficLight_new, [])).1.2
   = opposite (getCurrentPhase TrafficLight_new)).
Proof.
  assert (uni (phase_duration Sample.locals0)) as Huni.
  { unfold uni, min, max. simpl. lia. }
  split; [exact Huni|].
  exact (proj2 (phase_lasts_4_to_6_seconds Scenario.toggle_input
                  Sample.locals0 TrafficLight_new [] Huni)).
Defined.

Lemma iter_opposite n :
  Nat.iter n opposite red = if Nat.odd n then green else red.
Proof.
  induction n as [|n IH]; [done|].
  rewrite Nat.odd_succ, <- Nat.negb_odd. simpl. rewrite IH.
  by destruct (Nat.odd n).
Qed.

(** The light after a run of the toggle loop, whatever the draws. *)
Lemma cycleThroughPhases_run_light inputs : ∀ l tl out,
  (cycleThroughPhases_run inputs (l, tl, out)).1.2
  = {| _currentPhase := Nat.iter (toggles inputs l) opposite (_currentPhase tl);
       _queue := sends (alternation (_currentPhase tl) (toggles inputs l))
                       (_queue tl) |}.
Proof.
  unfold cycleThroughPhases_run.
  induction inputs as [|i inputs IH]; intros l tl out; cbn [foldl toggles].
  - simpl. by destruct tl as [? []].
  - destruct (cycleThroughPhases_iter_cases i l tl out) as [[Hlt ->]|[Hle ->]].
    + apply Z.leb_gt in Hlt. rewrite Hlt. apply IH.
    + apply Z.leb_le in Hle. rewrite Hle, IH. simpl.
      generalize (toggles inputs
        {| phase_duration := uni_rng i; phase_start := now_restart i |}).
      intros n. rewrite Nat.iter_swap. by destruct (_currentPhase tl).
Qed.

(** [trafficLightIsGreen] tells the parity of the toggles: for an
    intersection whose light has run its loop since construction, it is
    true exactly when the phase was toggled an odd number of times. *)
Theorem trafficLightIsGreen_odd_toggles (x : Intersection)
    (inputs : list cycle_input) (l : cycle_locals) (out : list cout_line) :
  _trafficLight x
    = (cycleThroughPhases_run inputs (l, TrafficLight_new, out)).1.2 →
  trafficLightIsGreen x = Nat.odd (toggles inputs l).
Proof.
  intros Hlight. unfold trafficLightIsGreen, getCurrentPhase.
  rewrite Hlight, cycleThroughPhases_run_light. simpl.
  rewrite iter_opposite. by destruct (Nat.odd _).
Qed.

Lemma trafficLightIsGreen_odd_toggles_witness :
  trafficLightIsGreen Scenario.crossing_later
  = Nat.odd (toggles Sample.inputs Sample.locals0).
Proof.
  apply (trafficLightIsGreen_odd_toggles Scenario.crossing_later
           Sample.inputs Sample.locals0 []).
  reflexivity.
Defined.

Lemma alternation_even k :
  alternation red (2 * S k) = alternation red (2 * k) ++ [green; red].
Proof.
  replace (2 * S k)%nat with (S (S (2 * k))) by lia.
  rewrite (alternation_snoc (S (2 * k))), (alternation_snoc (2 * k)).
  rewrite <- app_assoc. rewrite (Nat.iter_succ (2 * k)). cbn [app].
  assert (Nat.iter (2 * k) opposite red = red) as ->; [|done].
  rewrite iter_opposite. replace (2 * k)%nat with (k + k)%nat by lia.
  rewrite Nat.odd_add. by destruct (Nat.odd k).
Qed.

(** Old messages open the green gate at a red light: when nobody has
    received from the queue and the light has gone through a positive,
    even number of toggles, it shows red, yet a call of [waitForGreen]
    returns at once: it drops the red value sent last and returns on the
    green value sent before it. *)
Theorem waitForGreen_passes_on_red (inputs : list cycle_input)
    (l : cycle_locals) (out : list cout_line) (k : nat) :
  toggles inputs l = (2 * S k)%nat →
  let tl := (cycleThroughPhases_run inputs (l, TrafficLight_new, out)).1.2 in
  getCurrentPhase tl = red ∧
  waitForGreen 2 tl
  = wait_returned
      {| _currentPhase := red;
         _queue := {| _messages := alternation red (2 * k) |} |}.
Proof.
  intros Hn tl. unfold tl. rewrite cycleThroughPhases_run_light, Hn.
  assert (Nat.iter (2 * S k) opposite red = red) as Hred.
  { rewrite iter_opposite. replace (2 * S k)%nat with (S k + S k)%nat by lia.
    rewrite Nat.odd_add. by destruct (Nat.odd (S k)). }
  cbn [_currentPhase _queue TrafficLight_new]. rewrite Hred.
  split; [done|].
  assert (sends (alternation red (2 * S k)) {| _messages := [] |}
          = {| _messages := (alternation red (2 * k) ++ [green]) ++ [red] |})
    as ->.
  { pose proof (sends_messages (alternation red (2 * S k))
                  {| _messages := [] |}) as H.
    destruct (sends _ _) as [m]. cbn [_messages app] in H.
    rewrite H, alternation_even. f_equal. by rewrite <- app_assoc. }
  by rewrite !waitForGreen_snoc.
Qed.

Lemma waitForGreen_passes_on_red_witness :
  toggles Sample.inputs Sample.locals0 = (2 * 1)%nat ∧
  getCurrentPhase
    (cycleThroughPhases_run Sample.inputs
       (Sample.locals0, TrafficLight_new, [])).1.2 = red ∧
  waitForGreen 2
    (cycleThroughPhases_run Sample.inputs
       (Sample.locals0, TrafficLight_new, [])).1.2
  = wait_returned
      {| _currentPhase := red;
         _queue := {| _messages := alternation red (2 * 0) |} |}.
Proof.
  split; [reflexivity|].
  apply (waitForGreen_passes_on_red Sample.inputs Sample.locals0 [] 0).
  reflexivity.
Defined.

(** ** The streets *)

(** What [queryStreets] returns, by id: a street is returned exactly when
    it is one of the intersection's and its id differs from the incoming
    street's.  Nothing is returned exactly when every street carries the
    incoming id (a dead end), and all streets are returned exactly when
    none does. *)
Theorem queryStreets_by_membership (incoming : Street) (x : Intersection) :
  (∀ it, it ∈ (queryStreets incoming x).1
         ↔ it ∈ _streets x ∧ street_getID it ≠ street_getID incoming) ∧
  ((queryStreets incoming x).1 = []
   ↔ Forall (fun it => street_getID it = street_getID incoming) (_streets x)) ∧
  ((queryStreets incoming x).1 = _streets x
   ↔ Forall (fun it => street_getID it ≠ street_getID incoming) (_streets x)).
Proof.
  rewrite queryStreets_by_id. simpl. split; [|split].
  - intros it. rewrite list_elem_of_filter. split; intros [? ?]; split; auto.
  - induction (_streets x) as [|it l IH]; [done|].
    rewrite filter_cons. case_decide as Hid.
    + split; [done|]. intros Hall. inversion Hall. congruence.
    + rewrite IH. split.
      * intros Hall. by constructor.
      * by inversion 1.
  - induction (_streets x) as [|it l IH]; [done|].
    rewrite filter_cons. case_decide as Hid.
    + split.
      * intros [= Heq]. constructor; [congruence|]. by apply IH.
      * inversion 1; subst. f_equal. by apply IH.
    + split.
      * intros Heq. exfalso.
        pose proof (length_filter
                      (fun it => street_getID incoming ≠ street_getID it) l) as Hlen.
        rewrite Heq in Hlen. simpl in Hlen. lia.
      * inversion 1; subst. congruence.
Qed.

(** Adding a street and asking again: the answer gains the new street at
    its end, unless the new street carries the incoming id, in which case
    the answer is the same. *)
Theorem queryStreets_addStreet (incoming street : Street) (x : Intersection) :
  queryStreets incoming (addStreet street x)
  = (if decide (street_getID incoming = street_getID street)
     then (queryStreets incoming x).1
     else (queryStreets incoming x).1 ++ [street],
     addStreet street x).
Proof.
  rewrite !queryStreets_by_id. simpl. f_equal.
  rewrite filter_app, filter_cons, filter_nil.
  destruct (decide (street_getID incoming = street_getID street)) as [Heq|Hne].
  - rewrite decide_False by (by intros ?). by rewrite app_nil_r.
  - by rewrite decide_True.
Qed.
